(** * tracker.py: status-page tracker (fetcher, change detector, poll loop)

    A shallow embedding of [src/tracker.py].  Python values are JSON values,
    Python exceptions are an explicit [Raise] result, and the two mutable
    objects of the program (the detector's [_seen] set and the fetcher's
    [_cache] dict) are threaded through a small state-and-exception monad,
    so that a mutation made before an exception is raised stays visible. *)

From Stdlib Require Import QArith Qcanon Ascii String.
From stdpp Require Import base gmap sets list strings.

Set Warnings "-register-all,-clear-no-such-hyp".
Local Open Scope string_scope.
Local Open Scope list_scope.

(** ** Python values and exceptions *)

(** What [json.loads] produces.  A number is the exact rational value of the
    parsed [int] or [float] (Python compares the two exactly, so [1 == 1.0]);
    the non-finite floats are not represented.  A [str] is held as its UTF-8
    bytes.  A [dict] is an association list in insertion order, looked up at
    its first binding. *)
Inductive json : Type :=
  | JNull
  | JBool (b : bool)
  | JNum (q : Qc)
  | JStr (s : string)
  | JArr (xs : list json)
  | JObj (kvs : list (string * json)).

Inductive exn : Type :=
  | AttributeError
  | TypeError
  | JSONDecodeError        (* a ValueError: neither ClientError nor TimeoutError *)
  | UnicodeDecodeError     (* a ValueError too *)
  | RecursionError
  | ClientError            (* aiohttp.ClientError and its subclasses *)
  | TimeoutError           (* asyncio.TimeoutError *)
  | OtherError (name : string).   (* any other exception class *)

Inductive result (A : Type) : Type :=
  | Ok (a : A)
  | Raise (e : exn).
Arguments Ok {A} a.
Arguments Raise {A} e.

Definition rbind {A B} (r : result A) (f : A → result B) : result B :=
  match r with
  | Ok a => f a
  | Raise e => Raise e
  end.

Notation "'let!' x ':=' c 'in' k" := (rbind c (λ x, k))
  (at level 10, x name, c at level 100, k at level 200).

Fixpoint dict_lookup (kvs : list (string * json)) (k : string) : option json :=
  match kvs with
  | [] => None
  | (k', v) :: kvs' => if String.eqb k' k then Some v else dict_lookup kvs' k
  end.

(** [o.get(k, dflt)]: only a dict has [get]. *)
Definition py_get (o : json) (k : string) (dflt : json) : result json :=
  match o with
  | JObj kvs => Ok (default dflt (dict_lookup kvs k))
  | _ => Raise AttributeError
  end.

Definition is_continuation (c : ascii) : bool :=
  let n := N_of_ascii c in ((128 <=? n) && (n <=? 191))%N.

(** The characters of a UTF-8 string: a byte joins the group that follows it
    when that group still starts with a continuation byte. *)
Fixpoint utf8_split (l : list ascii) : list (list ascii) :=
  match l with
  | [] => []
  | c :: r =>
      match utf8_split r with
      | (d :: ds) :: rest =>
          if is_continuation d then (c :: d :: ds) :: rest
          else [c] :: (d :: ds) :: rest
      | _ => [[c]]
      end
  end.

Definition str_chars (s : string) : list json :=
  (λ g, JStr (string_of_list_ascii g)) <$> utf8_split (list_ascii_of_string s).

(** [iter(o)] as the [for] statement uses it: a list yields its items, a dict
    its keys, a str its characters; nothing else is iterable. *)
Definition py_iter (o : json) : result (list json) :=
  match o with
  | JArr xs => Ok xs
  | JObj kvs => Ok (JStr <$> kvs.*1)
  | JStr s => Ok (str_chars s)
  | _ => Raise TypeError
  end.

Definition Qc_is_zero (q : Qc) : bool := bool_decide (q = Q2Qc 0).

(** Truth value of an object, as [if c.get("name")] tests it. *)
Definition py_truthy (v : json) : bool :=
  match v with
  | JNull => false
  | JBool b => b
  | JNum q => negb (Qc_is_zero q)
  | JStr s => negb (String.eqb s "")
  | JArr xs => negb (bool_decide (xs = []))
  | JObj kvs => negb (bool_decide (kvs = []))
  end.

(** *** [str.strip()] *)

Definition is_space_byte (c : ascii) : bool :=
  let n := N_of_ascii c in
  (((9 <=? n) && (n <=? 13)) || ((28 <=? n) && (n <=? 32)))%N.

(** U+0085 and U+00A0. *)
Definition is_space2 (a b : ascii) : bool :=
  let x := N_of_ascii a in let y := N_of_ascii b in
  ((x =? 194) && ((y =? 133) || (y =? 160)))%N.

(** U+1680, U+2000..U+200A, U+2028, U+2029, U+202F, U+205F, U+3000. *)
Definition is_space3 (a b c : ascii) : bool :=
  let x := N_of_ascii a in let y := N_of_ascii b in let z := N_of_ascii c in
  (((x =? 225) && (y =? 154) && (z =? 128))
   || ((x =? 226) && (y =? 128)
       && (((128 <=? z) && (z <=? 138)) || (z =? 168) || (z =? 169) || (z =? 175)))
   || ((x =? 226) && (y =? 129) && (z =? 159))
   || ((x =? 227) && (y =? 128) && (z =? 128)))%N.

Fixpoint lstrip (l : list ascii) : list ascii :=
  match l with
  | [] => []
  | c :: r =>
      if is_space_byte c then lstrip r
      else match r with
           | c2 :: r2 =>
               if is_space2 c c2 then lstrip r2
               else match r2 with
                    | c3 :: r3 => if is_space3 c c2 c3 then lstrip r3 else l
                    | [] => l
                    end
           | [] => l
           end
  end.

(** The same scan over the reversed bytes, for the right end. *)
Fixpoint lstrip_rev (l : list ascii) : list ascii :=
  match l with
  | [] => []
  | c :: r =>
      if is_space_byte c then lstrip_rev r
      else match r with
           | c2 :: r2 =>
               if is_space2 c2 c then lstrip_rev r2
               else match r2 with
                    | c3 :: r3 => if is_space3 c3 c2 c then lstrip_rev r3 else l
                    | [] => l
                    end
           | [] => l
           end
  end.

Definition str_strip (s : string) : string :=
  string_of_list_ascii
    (rev (lstrip_rev (rev (lstrip (list_ascii_of_string s))))).

(** [v.strip()]: only a str has [strip]. *)
Definition py_strip (v : json) : result string :=
  match v with
  | JStr s => Ok (str_strip s)
  | _ => Raise AttributeError
  end.

(** *** Hashing and equality of set members *)

(** The equality class of a hashable JSON value under Python's [==] and
    [hash]: [True == 1] and [False == 0], numbers compare by value. *)
Inductive hkey : Type :=
  | HNone
  | HNum (q : Qc)
  | HStr (s : string).

#[global] Instance hkey_eq_dec : EqDecision hkey.
Proof. solve_decision. Defined.

Definition hkey_to_sum (k : hkey) : unit + (Qc + string) :=
  match k with
  | HNone => inl ()
  | HNum q => inr (inl q)
  | HStr s => inr (inr s)
  end.

Definition hkey_of_sum (x : unit + (Qc + string)) : hkey :=
  match x with
  | inl _ => HNone
  | inr (inl q) => HNum q
  | inr (inr s) => HStr s
  end.

#[global] Instance hkey_countable : Countable hkey.
Proof.
  refine (inj_countable' hkey_to_sum hkey_of_sum _).
  by intros [].
Defined.

(** [hash(v)]: lists and dicts are unhashable. *)
Definition py_hash (v : json) : result hkey :=
  match v with
  | JNull => Ok HNone
  | JBool b => Ok (HNum (Q2Qc (if b then 1 else 0)))
  | JNum q => Ok (HNum q)
  | JStr s => Ok (HStr s)
  | JArr _ | JObj _ => Raise TypeError
  end.

(** A member of [_seen]: the tuple [(inc_id, upd_id)] up to [==]. *)
Abbreviation key := (hkey * hkey)%type.

Definition py_key (inc_id upd_id : json) : result key :=
  let! a := py_hash inc_id in
  let! b := py_hash upd_id in
  Ok (a, b).

(** ** Data model *)

(** The dataclass [IncidentUpdate].  The annotations say [str], but nothing
    checks them: a field holds whatever the document had there, except [body]
    which is the result of [strip]. *)
Record IncidentUpdate : Type := mkIncidentUpdate {
  incident_id : json;
  incident_name : json;
  update_id : json;
  created_at : json;
  body : string;
  update_status : json;
  impact : json;
  affected_components : list json;
}.

(** ** Layer 2: the change detector *)

(** A method of [ChangeDetector]: reads and writes [self._seen], may raise.
    The state that comes back with a [Raise] is the set as the exception
    left it. *)
Definition M (A : Type) : Type := gset key → gset key * result A.

Definition ret {A} (a : A) : M A := λ s, (s, Ok a).

Definition bind {A B} (m : M A) (f : A → M B) : M B :=
  λ s, match m s with
       | (s', Ok a) => f a s'
       | (s', Raise e) => (s', Raise e)
       end.

Definition lift {A} (r : result A) : M A := λ s, (s, r).

Notation "'let*' x ':=' c 'in' k" := (bind c (λ x, k))
  (at level 10, x name, c at level 100, k at level 200).

(** [key in self._seen] *)
Definition seen_contains (k : key) : M bool :=
  λ s, (s, Ok (bool_decide (k ∈ s))).

(** [self._seen.add(key)] *)
Definition seen_add (k : key) : M unit :=
  λ s, ({[k]} ∪ s, Ok ()).

(** [for x in xs: acc = body acc x] *)
Fixpoint for_in {A B} (xs : list A) (acc : B) (body : B → A → M B) : M B :=
  match xs with
  | [] => ret acc
  | x :: xs' => let* acc' := body acc x in for_in xs' acc' body
  end.

(** [[c.get("name", "") for c in comps if c.get("name")]] *)
Fixpoint affected_names (comps : list json) : result (list json) :=
  match comps with
  | [] => Ok []
  | c :: comps' =>
      let! t := py_get c "name" JNull in
      if py_truthy t then
        let! v := py_get c "name" (JStr "") in
        let! vs := affected_names comps' in
        Ok (v :: vs)
      else affected_names comps'
  end.

(** The body of the inner loop, lines 158-176. *)
Definition visit_update (inc_id inc_name inc_impact : json) (affected : list json)
    (new_updates : list IncidentUpdate) (update : json) : M (list IncidentUpdate) :=
  let* upd_id := lift (py_get update "id" (JStr "")) in
  let* k := lift (py_key inc_id upd_id) in
  let* known := seen_contains k in
  if known then ret new_updates
  else
    let* _ := seen_add k in
    let* created := lift (py_get update "created_at" (JStr "")) in
    let* raw_body := lift (py_get update "body" (JStr "")) in
    let* stripped := lift (py_strip raw_body) in
    let* status := lift (py_get update "status" (JStr "unknown")) in
    ret (new_updates ++
           [ {| incident_id := inc_id;
                incident_name := inc_name;
                update_id := upd_id;
                created_at := created;
                body := stripped;
                update_status := status;
                impact := inc_impact;
                affected_components := affected |} ]).

(** The body of the outer loop, lines 146-176. *)
Definition visit_incident (new_updates : list IncidentUpdate) (incident : json)
    : M (list IncidentUpdate) :=
  let* inc_id := lift (py_get incident "id" (JStr "")) in
  let* inc_name := lift (py_get incident "name" (JStr "Unknown incident")) in
  let* inc_impact := lift (py_get incident "impact" (JStr "unknown")) in
  let* comps := lift (let! cs := py_get incident "components" (JArr []) in py_iter cs) in
  let* affected := lift (affected_names comps) in
  let* updates := lift (let! us := py_get incident "incident_updates" (JArr []) in py_iter us) in
  for_in updates new_updates (visit_update inc_id inc_name inc_impact affected).

(** [ChangeDetector.find_new_updates] *)
Definition find_new_updates (data : json) : M (list IncidentUpdate) :=
  let* incidents := lift (let! incs := py_get data "incidents" (JArr []) in py_iter incs) in
  for_in incidents [] visit_incident.

(** ** The document as the detector reads it

    Pure readings of a document, used to state what [find_new_updates]
    returns when it returns.  [field] is [get] with the default also standing
    in where [get] would raise, [items] is the iteration with nothing where
    it would raise; on a call that returns the two never differ from the
    code's own reads (see [find_new_updates_returns]). *)

Definition field (o : json) (k : string) (dflt : json) : json :=
  match o with
  | JObj kvs => default dflt (dict_lookup kvs k)
  | _ => dflt
  end.

Definition items (o : json) : list json :=
  match py_iter o with
  | Ok xs => xs
  | Raise _ => []
  end.

Definition incidents_of (data : json) : list json :=
  items (field data "incidents" (JArr [])).

Definition components_of (incident : json) : list json :=
  items (field incident "components" (JArr [])).

Definition updates_of (incident : json) : list json :=
  items (field incident "incident_updates" (JArr [])).

(** The name a component contributes: the value of a [name] field that is
    present and truthy (for a string: non-empty). *)
Definition kept_name (c : json) : option json :=
  match c with
  | JObj kvs =>
      match dict_lookup kvs "name" with
      | Some v => if py_truthy v then Some v else None
      | None => None
      end
  | _ => None
  end.

Definition component_names (incident : json) : list json :=
  omap kept_name (components_of incident).

Definition stripped_body (update : json) : string :=
  match field update "body" (JStr "") with
  | JStr s => str_strip s
  | _ => ""
  end.

(** The record of one update entry of one incident. *)
Definition record_of (incident update : json) : IncidentUpdate :=
  {| incident_id := field incident "id" (JStr "");
     incident_name := field incident "name" (JStr "Unknown incident");
     update_id := field update "id" (JStr "");
     created_at := field update "created_at" (JStr "");
     body := stripped_body update;
     update_status := field update "status" (JStr "unknown");
     impact := field incident "impact" (JStr "unknown");
     affected_components := component_names incident |}.

(** Every update entry of the document, incident by incident and, within an
    incident, update by update. *)
Definition all_records (data : json) : list IncidentUpdate :=
  incident ← incidents_of data; record_of incident <$> updates_of incident.

Definition update_key (r : IncidentUpdate) : option key :=
  match py_key (incident_id r) (update_id r) with
  | Ok k => Some k
  | Raise _ => None
  end.

Definition keys_of (rs : list IncidentUpdate) : list key := omap update_key rs.

(** The records whose key is neither in [seen] nor carried by an earlier
    record of the list, in the order of the list. *)
Fixpoint new_among (seen : gset key) (rs : list IncidentUpdate) : list IncidentUpdate :=
  match rs with
  | [] => []
  | r :: rs' =>
      match update_key r with
      | Some k =>
          if bool_decide (k ∈ seen) then new_among seen rs'
          else r :: new_among ({[k]} ∪ seen) rs'
      | None => new_among seen rs'
      end
  end.

(** One detector fed a sequence of documents: the state after the last call
    and what each call gave back. *)
Fixpoint feed (seen : gset key) (docs : list json)
    : gset key * list (result (list IncidentUpdate)) :=
  match docs with
  | [] => (seen, [])
  | d :: docs' =>
      let '(seen1, out) := find_new_updates d seen in
      let '(seen2, outs) := feed seen1 docs' in
      (seen2, out :: outs)
  end.

(** The records a sequence of calls returned, in call order. *)
Fixpoint returned (outs : list (result (list IncidentUpdate))) : list IncidentUpdate :=
  match outs with
  | [] => []
  | Ok rs :: outs' => rs ++ returned outs'
  | Raise _ :: outs' => returned outs'
  end.

(** ** Layer 1: the fetcher *)

(** How one [session.get] went.  The status line and the headers arrive
    first; the body is read afterwards, by [response.json], and that read can
    fail on its own. *)
Inductive body_result : Type :=
  | BodyJson (j : json)       (* the body parses; [null] and a blank body give [None] *)
  | BodyNotJson               (* the body is text that is not JSON *)
  | BodyUndecodable           (* the body's bytes are not text in its charset *)
  | BodyTooDeep               (* the body nests deeper than the parser recurses *)
  | BodyOtherError (name : string)   (* the read fails with some other exception *)
  | BodyClientError           (* the connection broke while reading *)
  | BodyTimeout.              (* the 15 s ran out while reading *)

Inductive http_outcome : Type :=
  | GetClientError            (* no response: network error *)
  | GetTimeout                (* no response within 15 s *)
  | Response (status : Z) (headers : list (string * string)) (body : body_result).

Inductive level : Type := Debug | Info | Warning.

(** What a poll does to the outside world. *)
Inductive event : Type :=
  | EvGet (url : string) (request_headers : gmap string string)
  | EvLog (lvl : level)
  | EvEmit (provider_name : string) (update : IncidentUpdate)
  | EvSleep (seconds : Z).

Definition lower_ascii (c : ascii) : ascii :=
  let n := N_of_ascii c in
  if ((65 <=? n) && (n <=? 90))%N then ascii_of_N (n + 32) else c.

Fixpoint lower (s : string) : string :=
  match s with
  | EmptyString => EmptyString
  | String c s' => String (lower_ascii c) (lower s')
  end.

(** [response.headers.get(name)]: header names compare without case, the
    first value wins. *)
Fixpoint header_get (headers : list (string * string)) (name : string) : option string :=
  match headers with
  | [] => None
  | (n, v) :: headers' =>
      if String.eqb (lower n) (lower name) then Some v else header_get headers' name
  end.

(** [if x := o: d[k] = x] for a str-or-None [o]. *)
Definition set_if_truthy (k : string) (o : option string) (d : gmap string string)
    : gmap string string :=
  match o with
  | Some v => if String.eqb v "" then d else <[k := v]> d
  | None => d
  end.

(** Lines 86-91. *)
Definition request_headers_of (cached : gmap string string) : gmap string string :=
  set_if_truthy "If-Modified-Since" (cached !! "last_modified")
    (set_if_truthy "If-None-Match" (cached !! "etag") ∅).

(** Lines 104-108. *)
Definition new_cache_of (headers : list (string * string)) : gmap string string :=
  set_if_truthy "last_modified" (header_get headers "Last-Modified")
    (set_if_truthy "etag" (header_get headers "ETag") ∅).

(** [response.raise_for_status()]: aiohttp raises [ClientResponseError], a
    [ClientError], when the status is 400 or higher, and does nothing below. *)
Definition raise_for_status (status : Z) : result unit :=
  if (400 <=? status)%Z then Raise ClientError else Ok ().

(** [await response.json(content_type=None)] *)
Definition response_json (b : body_result) : result json :=
  match b with
  | BodyJson j => Ok j
  | BodyNotJson => Raise JSONDecodeError
  | BodyUndecodable => Raise UnicodeDecodeError
  | BodyTooDeep => Raise RecursionError
  | BodyOtherError name => Raise (OtherError name)
  | BodyClientError => Raise ClientError
  | BodyTimeout => Raise TimeoutError
  end.

(** The [try] block of [fetch], lines 94-111: the cache it leaves and what it
    returns or raises. *)
Definition fetch_try (url : string) (o : http_outcome)
    (cache : gmap string (gmap string string))
    : gmap string (gmap string string) * list event * result json :=
  match o with
  | GetClientError => (cache, [], Raise ClientError)
  | GetTimeout => (cache, [], Raise TimeoutError)
  | Response status headers body =>
      if (status =? 304)%Z then (cache, [EvLog Debug], Ok JNull)
      else
        match raise_for_status status with
        | Raise e => (cache, [], Raise e)
        | Ok _ =>
            (<[url := new_cache_of headers]> cache, [], response_json body)
        end
  end.

(** [StatusPageFetcher.fetch]: the two [except] clauses turn [ClientError]
    and [TimeoutError] into a warning and [None]; anything else passes. *)
Definition fetch (url : string) (o : http_outcome)
    (cache : gmap string (gmap string string))
    : gmap string (gmap string string) * list event * result json :=
  let cached := default ∅ (cache !! url) in
  let request := EvGet url (request_headers_of cached) in
  match fetch_try url o cache with
  | (cache', evs, Raise ClientError) => (cache', request :: evs ++ [EvLog Warning], Ok JNull)
  | (cache', evs, Raise TimeoutError) => (cache', request :: evs ++ [EvLog Warning], Ok JNull)
  | (cache', evs, r) => (cache', request :: evs, r)
  end.

(** ** The orchestrator *)

(** The two objects a provider's task works on. *)
Record world : Type := mkWorld {
  fetcher_cache : gmap string (gmap string string);
  detector_seen : gset key;
}.

Inductive loop_status : Type :=
  | Polling                    (* still in [while True] *)
  | Stopped (e : exn).         (* an exception left [monitor_provider] *)

Section Orchestrator.

(** [output.emit]: the sink is the caller's; it may raise. *)
Variable emit : string → IncidentUpdate → result unit.

Variables (provider_name url : string) (poll_interval : Z).

(** [for upd in new_updates: output.emit(provider_name, upd)] *)
Fixpoint emit_all (new_updates : list IncidentUpdate) : list event * result unit :=
  match new_updates with
  | [] => ([], Ok ())
  | upd :: rest =>
      match emit provider_name upd with
      | Raise e => ([EvEmit provider_name upd], Raise e)
      | Ok _ =>
          let '(evs, r) := emit_all rest in
          (EvEmit provider_name upd :: evs, r)
      end
  end.

(** One turn of the [while True] loop, lines 252-263. *)
Definition monitor_cycle (o : http_outcome) (w : world)
    : world * list event * result unit :=
  let '(cache1, evs1, fetched) := fetch url o (fetcher_cache w) in
  match fetched with
  | Raise e => (mkWorld cache1 (detector_seen w), evs1, Raise e)
  | Ok JNull =>
      (mkWorld cache1 (detector_seen w), evs1 ++ [EvSleep poll_interval], Ok ())
  | Ok data =>
      let '(seen1, found) := find_new_updates data (detector_seen w) in
      match found with
      | Raise e => (mkWorld cache1 seen1, evs1, Raise e)
      | Ok [] =>
          (mkWorld cache1 seen1, evs1 ++ [EvLog Debug; EvSleep poll_interval], Ok ())
      | Ok new_updates =>
          match emit_all new_updates with
          | (evs2, Raise e) => (mkWorld cache1 seen1, evs1 ++ evs2, Raise e)
          | (evs2, Ok _) =>
              (mkWorld cache1 seen1, evs1 ++ evs2 ++ [EvSleep poll_interval], Ok ())
          end
      end
  end.

(** The loop over the outcomes of its successive requests: it has no
    [try], so the first exception of a turn ends it. *)
Fixpoint poll_loop (os : list http_outcome) (w : world)
    : world * list event * loop_status :=
  match os with
  | [] => (w, [], Polling)
  | o :: os' =>
      match monitor_cycle o w with
      | (w1, evs, Raise e) => (w1, evs, Stopped e)
      | (w1, evs, Ok _) =>
          let '(w2, evs', st) := poll_loop os' w1 in
          (w2, evs ++ evs', st)
      end
  end.

(** [monitor_provider] *)
Definition monitor_provider (os : list http_outcome) (w : world)
    : world * list event * loop_status :=
  let '(w', evs, st) := poll_loop os w in
  (w', EvLog Info :: evs, st).

End Orchestrator.

(** The sink calls of a trace. *)
Definition emitted (evs : list event) : list (string * IncidentUpdate) :=
  omap (λ e, match e with EvEmit p u => Some (p, u) | _ => None end) evs.

(** The sleeps of a trace. *)
Definition slept (evs : list event) : list Z :=
  omap (λ e, match e with EvSleep n => Some n | _ => None end) evs.

(** ** Readings of the specification *)

(** A fetch the specification calls a transport failure: a network error or
    a timeout, before the response or while its body is read, or a status
    that is neither 2xx nor 304. *)
Definition transport_failure (o : http_outcome) : Prop :=
  match o with
  | GetClientError | GetTimeout => True
  | Response status _ body =>
      (¬ (200 ≤ status < 300)%Z ∧ status ≠ 304%Z)
      ∨ body = BodyClientError ∨ body = BodyTimeout
  end.

(** The failures [fetch] sees before it touches the cache: no response at
    all, or a status that [raise_for_status] refuses. *)
Definition refused (o : http_outcome) : bool :=
  match o with
  | GetClientError | GetTimeout => true
  | Response status _ _ => (400 <=? status)%Z
  end.

(** A response whose status lets [fetch] go on to the body. *)
Definition accepted (o : http_outcome) : option (list (string * string)) :=
  match o with
  | Response status headers _ =>
      if (status =? 304)%Z then None
      else if (400 <=? status)%Z then None
      else Some headers
  | _ => None
  end.

(** The validator a response header carries: its value, when the header is
    there and not empty. *)
Definition carried (o : option string) : option string :=
  match o with
  | Some v => if String.eqb v "" then None else Some v
  | None => None
  end.

Definition is_hashable (v : json) : bool :=
  match v with
  | JArr _ | JObj _ => false
  | _ => true
  end.

Definition is_str (v : json) : bool :=
  match v with
  | JStr _ => true
  | _ => false
  end.

Definition is_dict (v : json) : bool :=
  match v with
  | JObj _ => true
  | _ => false
  end.

(** [check] holds of field [k] of the entry when the field is there;
    an absent field passes. *)
Definition present_ok (kvs : list (string * json)) (k : string) (check : json → bool) : bool :=
  match dict_lookup kvs k with
  | Some v => check v
  | None => true
  end.

Definition list_of (check : json → bool) (v : json) : bool :=
  match v with
  | JArr xs => forallb check xs
  | _ => false
  end.

Definition update_ok (u : json) : bool :=
  match u with
  | JObj kvs => present_ok kvs "id" is_hashable && present_ok kvs "body" is_str
  | _ => false
  end.

Definition incident_ok (i : json) : bool :=
  match i with
  | JObj kvs =>
      present_ok kvs "id" is_hashable
      && present_ok kvs "components" (list_of is_dict)
      && present_ok kvs "incident_updates" (list_of update_ok)
  | _ => false
  end.

(** A document in which every field that is present has a type the detector
    can use: lists of dicts where it iterates, hashable ids, a str body.
    Nothing is asked of a field that is absent. *)
Definition present_fields_ok (data : json) : bool :=
  match data with
  | JObj kvs => present_ok kvs "incidents" (list_of incident_ok)
  | _ => false
  end.

Definition absent (o : json) (k : string) : Prop :=
  match o with
  | JObj kvs => dict_lookup kvs k = None
  | _ => False
  end.

(** The record [r] of update entry [upd] of incident [inc] has the
    placeholder wherever the entry lacks the field. *)
Definition placeholders (inc upd : json) (r : IncidentUpdate) : Prop :=
  (absent inc "id" → incident_id r = JStr "")
  ∧ (absent inc "name" → incident_name r = JStr "Unknown incident")
  ∧ (absent inc "impact" → impact r = JStr "unknown")
  ∧ (absent upd "id" → update_id r = JStr "")
  ∧ (absent upd "created_at" → created_at r = JStr "")
  ∧ (absent upd "body" → body r = "")
  ∧ (absent upd "status" → update_status r = JStr "unknown").

(** ** Sample documents *)

Definition update_entry (id status text : string) : json :=
  JObj [("id", JStr id); ("created_at", JStr "2024-05-01T10:00:00Z");
        ("body", JStr text); ("status", JStr status)].

Definition incident_entry (id : string) (components updates : list json) : json :=
  JObj [("id", JStr id); ("name", JStr "Elevated error rates");
        ("impact", JStr "minor"); ("components", JArr components);
        ("incident_updates", JArr updates)].

Definition document (incidents : list json) : json :=
  JObj [("incidents", JArr incidents)].

Definition U1 : json := update_entry "U1" "investigating" "".
Definition U2 : json := update_entry "U2" "resolved" "  fixed  ".

(** Three components: a named one, one with an empty name, one with none. *)
Definition sample_components : list json :=
  [JObj [("name", JStr "API")]; JObj [("name", JStr "")]; JObj []].

Definition I1 : json := incident_entry "I1" sample_components [U1; U2].

Definition doc_two_updates : json := document [I1].



(** An incident and an update with no fields at all. *)
Definition I_bare : json := JObj [("incident_updates", JArr [JObj []])].

Definition doc_bare : json := document [I_bare].

(** An update whose [body] is there and [null], followed by a sound one;
    and the same document with the body put right. *)
Definition U_null_body : json :=
  JObj [("id", JStr "U1"); ("body", JNull); ("status", JStr "investigating")].

Definition doc_null_body : json := document [incident_entry "I1" [] [U_null_body; U2]].

Definition U_fixed_body : json :=
  JObj [("id", JStr "U1"); ("body", JStr "Investigating."); ("status", JStr "investigating")].

Definition doc_fixed_body : json := document [incident_entry "I1" [] [U_fixed_body; U2]].

(** A server down for maintenance: 200, a fresh entity tag, an HTML body. *)
Definition maintenance_page : http_outcome :=
  Response 200 [("ETag", "v2"); ("Content-Type", "text/html")] BodyNotJson.

(** 300 Multiple Choices with a document as its body. *)
Definition multiple_choices : http_outcome :=
  Response 300 [("ETag", "v2")] (BodyJson doc_two_updates).

Definition sample_url : string := "https://status.example/api/v2/incidents.json".

Definition sample_cache : gmap string (gmap string string) :=
  {[ sample_url :=
       {[ "etag" := "v1"; "last_modified" := "Wed, 01 May 2024 10:00:00 GMT" ]} ]}.

Definition sample_world : world := mkWorld sample_cache ∅.

(** A sink that never fails. *)
Definition quiet_sink (provider_name : string) (update : IncidentUpdate) : result unit :=
  Ok ().

(** ** Layer 3: the console sink, lines 204-208 *)

(** The items of a [join]: every one must be a str. *)
Fixpoint as_strs (xs : list json) : result (list string) :=
  match xs with
  | [] => Ok []
  | JStr s :: xs' => let! ss := as_strs xs' in Ok (s :: ss)
  | _ :: _ => Raise TypeError
  end.

(** [sep.join(xs)] *)
Definition py_join (sep : string) (xs : list json) : result string :=
  let! ss := as_strs xs in Ok (String.concat sep ss).

(** [product_label] in [ConsoleOutputHandler.emit]: the component names
    joined by a comma, or the provider's name when there are none. *)
Definition product_label (provider_name : string) (affected : list json) : result string :=
  match affected with
  | [] => Ok (String.append provider_name " API")
  | _ => py_join ", " affected
  end.

(** ** Readings of a run of the loop *)

(** The document a turn of the loop hands to the detector: the body of a
    response that [fetch] accepts, when it parses and is not [null]. *)
Definition delivered (o : http_outcome) : option json :=
  match o with
  | Response status _ (BodyJson j) =>
      if (status =? 304)%Z then None
      else if (400 <=? status)%Z then None
      else match j with
           | JNull => None
           | _ => Some j
           end
  | _ => None
  end.

(** The updates a trace handed to the sink. *)
Definition sunk (evs : list event) : list IncidentUpdate := (emitted evs).*2.

(** The requests of a trace. *)
Definition requests (evs : list event) : list (string * gmap string string) :=
  omap (λ e, match e with EvGet u h => Some (u, h) | _ => None end) evs.

(** Every component of the incident that has a name has a str for it. *)
Definition names_are_str (incident : json) : bool :=
  forallb (λ c, match c with
                | JObj kvs => present_ok kvs "name" is_str
                | _ => true
                end) (components_of incident).

Definition component_names_are_str (data : json) : bool :=
  forallb names_are_str (incidents_of data).

(** A sink that fails on an update that has no body. *)
Definition failing_sink (provider_name : string) (update : IncidentUpdate) : result unit :=
  if String.eqb (body update) "" then Raise AttributeError else Ok ().

(** A second provider's URL. *)
Definition other_url : string := "https://status.other.example/api/v2/incidents.json".

(** A computation that adds to the seen-set nothing but keys of [K], also
    when it raises. *)
Definition adds_only (K : gset key) {A} (m : M A) : Prop := ∀ s, (m s).1 ⊆ K ∪ s.

(** A shared cache that also holds another provider's entry. *)
Definition shared_world : world :=
  mkWorld (<[other_url := {[ "etag" := "w7" ]}]> sample_cache) ∅.

(** A poll that brings a document, one that brings nothing new, one that
    times out. *)
Definition sample_outcomes : list http_outcome :=
  [Response 200 [("ETag", "v2")] (BodyJson doc_two_updates);
   Response 304 [] BodyNotJson;
   GetTimeout].

(** The two exceptions the detector's reads of a document can raise. *)
Definition read_error (e : exn) : Prop := e = AttributeError ∨ e = TypeError.

(** A computation that raises nothing but read errors. *)
Definition raises_read_errors {A} (m : M A) : Prop :=
  ∀ s e, (m s).2 = Raise e → read_error e.

(** An outcome the loop gets through: no response, a 304, a refused
    status, a body read that breaks or times out, a body that is [null], or
    a document in which every field that is present is usable. *)
Definition benign (o : http_outcome) : bool :=
  match o with
  | GetClientError | GetTimeout => true
  | Response status _ body =>
      if (status =? 304)%Z then true
      else if (400 <=? status)%Z then true
      else match body with
           | BodyJson JNull => true
           | BodyJson j => present_fields_ok j
           | BodyClientError | BodyTimeout => true
           | _ => false
           end
  end.

(** * Properties *)

(** ** Reasoning about the monad *)

(** A run is known once its state and its result are. *)
Lemma run_eq {A B} (p : A * B) a b : p.1 = a → p.2 = b → p = (a, b).
Proof. destruct p. simpl. by intros -> ->. Qed.

Lemma rbind_returns {A B} (r : result A) (f : A → result B) b :
  rbind r f = Ok b → ∃ a, r = Ok a ∧ f a = Ok b.
Proof. destruct r as [a|e]; simpl; [eauto | discriminate]. Qed.

Lemma bind_returns {A B} (m : M A) (f : A → M B) s s' b :
  bind m f s = (s', Ok b) → ∃ a s1, m s = (s1, Ok a) ∧ f a s1 = (s', Ok b).
Proof.
  unfold bind. destruct (m s) as [s1 [a|e]]; [eauto | discriminate].
Qed.

Lemma lift_returns {A} (r : result A) s s' a :
  lift r s = (s', Ok a) → r = Ok a ∧ s' = s.
Proof. unfold lift. by intros [= -> ->]. Qed.

Lemma ret_returns {A} (x a : A) s s' :
  ret x s = (s', Ok a) → a = x ∧ s' = s.
Proof. unfold ret. by intros [= -> ->]. Qed.

(** A computation that only ever adds to the seen-set, also when it raises. *)
Definition grows {A} (m : M A) : Prop := ∀ s, s ⊆ (m s).1.

Lemma grows_ret {A} (a : A) : grows (ret a).
Proof. by intros s. Qed.

Lemma grows_lift {A} (r : result A) : grows (lift r).
Proof. by intros s. Qed.

Lemma grows_seen_contains k : grows (seen_contains k).
Proof. by intros s. Qed.

Lemma grows_seen_add k : grows (seen_add k).
Proof. intros s. simpl. set_solver. Qed.

Lemma grows_bind {A B} (m : M A) (f : A → M B) :
  grows m → (∀ a, grows (f a)) → grows (bind m f).
Proof.
  intros Hm Hf s. unfold bind. specialize (Hm s).
  destruct (m s) as [s1 [a|e]]; simpl in *; [|done].
  specialize (Hf a s1). set_solver.
Qed.

Lemma grows_for_in {A B} (xs : list A) (body : B → A → M B) :
  (∀ acc x, grows (body acc x)) → ∀ acc, grows (for_in xs acc body).
Proof.
  intros Hbody. induction xs as [|x xs IH]; intros acc; simpl.
  - apply grows_ret.
  - apply grows_bind; [apply Hbody | intros acc'; apply IH].
Qed.

Create HintDb grows.
#[local] Hint Resolve grows_ret grows_lift grows_seen_contains grows_seen_add : grows.

Lemma grows_visit_update inc_id inc_name inc_impact affected acc u :
  grows (visit_update inc_id inc_name inc_impact affected acc u).
Proof.
  unfold visit_update.
  repeat (apply grows_bind; [auto with grows | intros ?]).
  case_match; repeat (apply grows_bind; [auto with grows | intros ?]);
    auto with grows.
Qed.

Lemma grows_visit_incident acc i : grows (visit_incident acc i).
Proof.
  unfold visit_incident.
  repeat (apply grows_bind; [auto with grows | intros ?]).
  apply grows_for_in. intros. apply grows_visit_update.
Qed.

Lemma grows_find_new_updates data : grows (find_new_updates data).
Proof.
  unfold find_new_updates. apply grows_bind; [auto with grows | intros ?].
  apply grows_for_in. intros. apply grows_visit_incident.
Qed.

(** ** The code's reads against the pure readings *)

Lemma py_get_returns o k dflt v : py_get o k dflt = Ok v → is_dict o = true ∧ v = field o k dflt.
Proof. destruct o; simpl; try discriminate. by intros [= <-]. Qed.

Lemma py_iter_returns o xs : py_iter o = Ok xs → items o = xs.
Proof. unfold items. by intros ->. Qed.

Lemma py_strip_returns v s :
  py_strip v = Ok s → ∃ s', v = JStr s' ∧ s = str_strip s'.
Proof. destruct v; simpl; try discriminate. intros [= <-]. eauto. Qed.

Lemma affected_names_returns comps vs :
  affected_names comps = Ok vs → vs = omap kept_name comps.
Proof.
  revert vs. induction comps as [|c comps IH]; intros vs; simpl.
  - by intros [= <-].
  - intros H. apply rbind_returns in H as (t & Ht & H).
    destruct c as [| | | | |kvs]; simpl in Ht; try discriminate.
    injection Ht as <-. cbn [omap list_omap kept_name]. simpl in H.
    destruct (dict_lookup kvs "name") as [v|]; simpl in H.
    + destruct (py_truthy v); [|by apply IH].
      apply rbind_returns in H as (vs' & Hvs & [= <-]).
      by rewrite (IH _ Hvs).
    + by apply IH.
Qed.

(** ** What [new_among] keeps *)

Lemma keys_of_app rs1 rs2 : keys_of (rs1 ++ rs2) = keys_of rs1 ++ keys_of rs2.
Proof. apply omap_app. Qed.

Lemma new_among_app seen rs1 rs2 :
  new_among seen (rs1 ++ rs2)
  = new_among seen rs1 ++ new_among (list_to_set (keys_of rs1) ∪ seen) rs2.
Proof.
  revert seen. induction rs1 as [|r rs1 IH]; intros seen; simpl.
  - f_equal. set_solver.
  - unfold keys_of. simpl. destruct (update_key r) as [k|]; simpl.
    + case_bool_decide as Hk.
      * rewrite IH. do 2 f_equal. set_solver.
      * rewrite IH. simpl. do 3 f_equal. set_solver.
    + apply IH.
Qed.

Lemma new_among_sublist seen rs : new_among seen rs `sublist_of` rs.
Proof.
  revert seen. induction rs as [|r rs IH]; intros seen; simpl; [done|].
  destruct (update_key r); [case_bool_decide|]; by constructor.
Qed.

Lemma new_among_keyed seen rs :
  Forall (λ r, is_Some (update_key r)) (new_among seen rs).
Proof.
  revert seen. induction rs as [|r rs IH]; intros seen; simpl; [done|].
  destruct (update_key r) as [k|] eqn:Hk; [case_bool_decide|]; auto.
Qed.

Lemma new_among_fresh seen rs k : k ∈ keys_of (new_among seen rs) → k ∉ seen.
Proof.
  revert seen. induction rs as [|r rs IH]; intros seen; simpl.
  - by intros ?%elem_of_nil.
  - destruct (update_key r) as [k'|] eqn:Hk; [case_bool_decide as Hin|]; auto.
    unfold keys_of. simpl. rewrite Hk. simpl.
    intros [->|Hk']%elem_of_cons; [done|].
    apply IH in Hk'. set_solver.
Qed.

Lemma new_among_NoDup seen rs : NoDup (keys_of (new_among seen rs)).
Proof.
  revert seen. induction rs as [|r rs IH]; intros seen; simpl.
  - constructor.
  - destruct (update_key r) as [k|] eqn:Hk; [case_bool_decide as Hin|]; auto.
    unfold keys_of. simpl. rewrite Hk. simpl. constructor; [|apply IH].
    intros Hk'%new_among_fresh. set_solver.
Qed.

Lemma new_among_into_seen seen rs k :
  k ∈ keys_of (new_among seen rs) → k ∈ keys_of rs.
Proof.
  unfold keys_of. rewrite !list_elem_of_omap.
  intros (r & Hr & ?). exists r. split; [|done].
  eapply elem_of_sublist; [done | apply new_among_sublist].
Qed.


(** Once every key of the list is seen, nothing is new. *)
Lemma new_among_none seen rs :
  (∀ k, k ∈ keys_of rs → k ∈ seen) → new_among seen rs = [].
Proof.
  induction rs as [|r rs IH]; intros Hseen; [done|]. simpl.
  unfold keys_of in *. simpl in *.
  destruct (update_key r) as [k|]; simpl in *.
  - rewrite bool_decide_eq_true_2 by (apply Hseen; set_solver).
    apply IH. intros k' ?. apply Hseen. set_solver.
  - by apply IH.
Qed.

(** ** The loops of [find_new_updates], when they return *)

Lemma seen_contains_returns k s s' b :
  seen_contains k s = (s', Ok b) → b = bool_decide (k ∈ s) ∧ s' = s.
Proof. unfold seen_contains. by intros [= -> ->]. Qed.

Lemma seen_add_returns k s s' u :
  seen_add k s = (s', Ok u) → s' = {[k]} ∪ s.
Proof. unfold seen_add. by intros [= <-]. Qed.

Lemma visit_update_returns inc acc u s s' out :
  visit_update (field inc "id" (JStr "")) (field inc "name" (JStr "Unknown incident"))
    (field inc "impact" (JStr "unknown")) (component_names inc) acc u s = (s', Ok out) →
  out = acc ++ new_among s [record_of inc u]
  ∧ s' = list_to_set (keys_of [record_of inc u]) ∪ s
  ∧ is_Some (update_key (record_of inc u)).
Proof.
  unfold visit_update. intros H.
  apply bind_returns in H as (upd_id & s1 & [Hid ->]%lift_returns & H).
  apply bind_returns in H as (k & s1 & [Hk ->]%lift_returns & H).
  apply bind_returns in H as (known & s1 & [-> ->]%seen_contains_returns & H).
  apply py_get_returns in Hid as [_ ->].
  assert (update_key (record_of inc u) = Some k) as Hkey
    by (unfold update_key; simpl; by rewrite Hk).
  unfold keys_of. simpl. rewrite Hkey. simpl.
  case_bool_decide as Hin.
  - apply ret_returns in H as [-> ->].
    split_and!; [by rewrite app_nil_r | set_solver | done].
  - apply bind_returns in H as (? & s1 & ->%seen_add_returns & H).
    apply bind_returns in H as (created & s1 & [Hc ->]%lift_returns & H).
    apply bind_returns in H as (raw & s1 & [Hraw ->]%lift_returns & H).
    apply bind_returns in H as (stripped & s1 & [Hs ->]%lift_returns & H).
    apply bind_returns in H as (status & s1 & [Hst ->]%lift_returns & H).
    apply ret_returns in H as [-> ->].
    apply py_get_returns in Hc as [_ ->].
    apply py_get_returns in Hraw as [_ ->].
    apply py_get_returns in Hst as [_ ->].
    apply py_strip_returns in Hs as (b & Hb & ->).
    split_and!; [|set_solver|done]. do 2 f_equal.
    unfold record_of, stripped_body. by rewrite Hb.
Qed.

Lemma updates_loop_returns inc us acc s s' out :
  for_in us acc
    (visit_update (field inc "id" (JStr "")) (field inc "name" (JStr "Unknown incident"))
       (field inc "impact" (JStr "unknown")) (component_names inc)) s = (s', Ok out) →
  out = acc ++ new_among s (record_of inc <$> us)
  ∧ s' = list_to_set (keys_of (record_of inc <$> us)) ∪ s
  ∧ Forall (λ r, is_Some (update_key r)) (record_of inc <$> us).
Proof.
  revert acc s. induction us as [|u us IH]; intros acc s H; simpl in H.
  - apply ret_returns in H as [-> ->]. simpl.
    split_and!; [by rewrite app_nil_r | set_solver | done].
  - apply bind_returns in H as (acc1 & s1 & Hu & H).
    apply visit_update_returns in Hu as (-> & -> & Hkeyed).
    apply IH in H as (-> & -> & Hkeyed').
    change (record_of inc <$> u :: us) with ([record_of inc u] ++ (record_of inc <$> us)).
    rewrite new_among_app, keys_of_app, list_to_set_app_L, <-(assoc_L (++)).
    split_and!; [done | set_solver |].
    apply Forall_app. split; [by apply Forall_singleton | done].
Qed.

Lemma visit_incident_returns acc inc s s' out :
  visit_incident acc inc s = (s', Ok out) →
  out = acc ++ new_among s (record_of inc <$> updates_of inc)
  ∧ s' = list_to_set (keys_of (record_of inc <$> updates_of inc)) ∪ s
  ∧ Forall (λ r, is_Some (update_key r)) (record_of inc <$> updates_of inc).
Proof.
  unfold visit_incident. intros H.
  apply bind_returns in H as (inc_id & s1 & [Hid ->]%lift_returns & H).
  apply bind_returns in H as (inc_name & s1 & [Hname ->]%lift_returns & H).
  apply bind_returns in H as (inc_impact & s1 & [Himpact ->]%lift_returns & H).
  apply bind_returns in H as (comps & s1 & [Hcomps ->]%lift_returns & H).
  apply bind_returns in H as (affected & s1 & [Haff ->]%lift_returns & H).
  apply bind_returns in H as (us & s1 & [Hus ->]%lift_returns & H).
  apply py_get_returns in Hid as [_ ->].
  apply py_get_returns in Hname as [_ ->].
  apply py_get_returns in Himpact as [_ ->].
  apply rbind_returns in Hcomps as (cs & [_ ->]%py_get_returns & Hcomps%py_iter_returns).
  apply rbind_returns in Hus as (us' & [_ ->]%py_get_returns & Hus%py_iter_returns).
  apply affected_names_returns in Haff. subst comps us affected.
  by apply updates_loop_returns in H.
Qed.

Lemma incidents_loop_returns incs acc s s' out :
  for_in incs acc visit_incident s = (s', Ok out) →
  out = acc ++ new_among s (inc ← incs; record_of inc <$> updates_of inc)
  ∧ s' = list_to_set (keys_of (inc ← incs; record_of inc <$> updates_of inc)) ∪ s
  ∧ Forall (λ r, is_Some (update_key r))
      (inc ← incs; record_of inc <$> updates_of inc).
Proof.
  revert acc s. induction incs as [|i incs IH]; intros acc s H; simpl in H.
  - apply ret_returns in H as [-> ->]. simpl.
    split_and!; [by rewrite app_nil_r | set_solver | done].
  - apply bind_returns in H as (acc1 & s1 & Hi & H).
    apply visit_incident_returns in Hi as (-> & -> & Hkeyed).
    apply IH in H as (-> & -> & Hkeyed'). cbn [mbind list_bind].
    rewrite new_among_app, keys_of_app, list_to_set_app_L, <-(assoc_L (++)).
    split_and!; [done | set_solver | apply Forall_app; by split].
Qed.

(** When [find_new_updates] returns, it returns the records of the document
    that are new, in document order, and has added the key of every entry. *)
Lemma find_new_updates_returns data s s' out :
  find_new_updates data s = (s', Ok out) →
  out = new_among s (all_records data)
  ∧ s' = list_to_set (keys_of (all_records data)) ∪ s
  ∧ Forall (λ r, is_Some (update_key r)) (all_records data).
Proof.
  unfold find_new_updates. intros H.
  apply bind_returns in H as (incs & s1 & [Hincs ->]%lift_returns & H).
  apply rbind_returns in Hincs as (v & [_ ->]%py_get_returns & Hincs%py_iter_returns).
  apply incidents_loop_returns in H as (-> & -> & Hkeyed).
  unfold all_records, incidents_of. by rewrite Hincs.
Qed.

(** ** The detector across calls *)

Lemma feed_cons seen d docs :
  feed seen (d :: docs)
  = ((feed (find_new_updates d seen).1 docs).1,
     (find_new_updates d seen).2 :: (feed (find_new_updates d seen).1 docs).2).
Proof.
  cbn [feed]. destruct (find_new_updates d seen) as [s1 out]. cbn [fst snd].
  by destruct (feed s1 docs) as [s2 outs].
Qed.

Lemma feed_app seen docs1 docs2 :
  feed seen (docs1 ++ docs2)
  = ((feed (feed seen docs1).1 docs2).1,
     (feed seen docs1).2 ++ (feed (feed seen docs1).1 docs2).2).
Proof.
  revert seen. induction docs1 as [|d docs1 IH]; intros seen.
  - simpl. by destruct (feed seen docs2).
  - rewrite <-app_comm_cons, !feed_cons, IH. done.
Qed.

Lemma feed_grows seen docs : seen ⊆ (feed seen docs).1.
Proof.
  revert seen. induction docs as [|d docs IH]; intros seen; [done|].
  rewrite feed_cons. simpl.
  pose proof (grows_find_new_updates d seen). specialize (IH (find_new_updates d seen).1).
  set_solver.
Qed.

(** What one call returns is keyed, without repeats, unseen before the call
    and seen after it. *)
Lemma find_new_updates_keys d s s' out :
  find_new_updates d s = (s', Ok out) →
  Forall (λ r, is_Some (update_key r)) out
  ∧ NoDup (keys_of out)
  ∧ ∀ k, k ∈ keys_of out → (k ∉ s) ∧ k ∈ s'.
Proof.
  intros (-> & -> & _)%find_new_updates_returns. split_and!.
  - apply new_among_keyed.
  - apply new_among_NoDup.
  - intros k Hk. split; [by eapply new_among_fresh|].
    apply new_among_into_seen in Hk. set_solver.
Qed.

(** C1. Exactly-once reporting.  Whatever documents one detector is fed,
    from whatever state: each call leaves a seen-set that contains the one it
    found, also when it raises, and so does every longer run of calls; every
    record returned has a key, and over all the records returned by all the
    calls, in call order, no key occurs twice — neither within one call's
    output, where the document repeats a key, nor in two different calls.
    A returned key was not in the seen-set before the run and is in it
    afterwards. *)
Theorem exactly_once_reporting (seen : gset key) (docs : list json) :
  (∀ d s, s ⊆ (find_new_updates d s).1)
  ∧ (∀ more, (feed seen docs).1 ⊆ (feed seen (docs ++ more)).1)
  ∧ Forall (λ r, is_Some (update_key r)) (returned (feed seen docs).2)
  ∧ NoDup (keys_of (returned (feed seen docs).2))
  ∧ (∀ k, k ∈ keys_of (returned (feed seen docs).2) →
          (k ∉ seen) ∧ k ∈ (feed seen docs).1).
Proof.
  split; [intros d s; apply grows_find_new_updates|].
  split; [intros more; rewrite feed_app; apply feed_grows|].
  revert seen. induction docs as [|d docs IH]; intros seen.
  - simpl. split_and!; [done | constructor | by intros k ?%elem_of_nil].
  - rewrite feed_cons. cbn [fst snd].
    pose proof (grows_find_new_updates d seen) as Hmono.
    destruct (find_new_updates d seen) as [s1 [out|e]] eqn:Hcall; cbn [fst snd] in *.
    + destruct (IH s1) as (Hkeyed & Hnd & Hfresh).
      apply find_new_updates_keys in Hcall as (Hkeyed1 & Hnd1 & Hfresh1).
      pose proof (feed_grows s1 docs) as Hrest.
      cbn [returned]. rewrite keys_of_app. split_and!.
      * by apply Forall_app.
      * apply NoDup_app. split_and!; [done | | done].
        intros k Hk Hk'. apply Hfresh1 in Hk. apply Hfresh in Hk'. tauto.
      * intros k [Hk|Hk]%elem_of_app.
        -- apply Hfresh1 in Hk. set_solver.
        -- apply Hfresh in Hk. set_solver.
    + destruct (IH s1) as (Hkeyed & Hnd & Hfresh). cbn [returned].
      split_and!; [done..|].
      intros k Hk. apply Hfresh in Hk. set_solver.
Qed.

(** ** A call on a document whose keys are all seen *)






(** ** What one call returns *)

Lemma all_records_provenance data r :
  r ∈ all_records data →
  ∃ inc upd, inc ∈ incidents_of data ∧ upd ∈ updates_of inc ∧ r = record_of inc upd.
Proof.
  unfold all_records. intros (inc & Hr & Hinc)%list_elem_of_bind.
  apply list_elem_of_fmap in Hr as (upd & -> & Hupd). eauto.
Qed.





(** C3. Order preservation.  What a call returns is the list of the
    document's update entries — incident by incident and, within an incident,
    update by update — with the entries that are not new taken out and
    nothing moved: a subsequence of the document's entries, in their order. *)
Theorem order_preservation (data : json) (seen seen' : gset key) (out : list IncidentUpdate) :
  find_new_updates data seen = (seen', Ok out) →
  out = new_among seen (inc ← incidents_of data; record_of inc <$> updates_of inc)
  ∧ out `sublist_of` (inc ← incidents_of data; record_of inc <$> updates_of inc).
Proof.
  intros (-> & _ & _)%find_new_updates_returns.
  split; [done | apply new_among_sublist].
Qed.

Lemma order_preservation_witness :
  [record_of I1 U1; record_of I1 U2]
  = new_among ∅ (inc ← incidents_of doc_two_updates; record_of inc <$> updates_of inc)
  ∧ [record_of I1 U1; record_of I1 U2]
    `sublist_of` (inc ← incidents_of doc_two_updates; record_of inc <$> updates_of inc).
Proof.
  apply (order_preservation doc_two_updates ∅ (find_new_updates doc_two_updates ∅).1).
  apply run_eq; [reflexivity | vm_compute; reflexivity].
Defined.

(** ** Documents the detector gets through *)

Lemma present_ok_default kvs k check dflt :
  present_ok kvs k check = true → check dflt = true →
  check (default dflt (dict_lookup kvs k)) = true.
Proof. unfold present_ok. by destruct (dict_lookup kvs k). Qed.

Lemma py_hash_total v : is_hashable v = true → ∃ h, py_hash v = Ok h.
Proof. destruct v; simpl; try discriminate; eauto. Qed.

Lemma py_key_total a b :
  is_hashable a = true → is_hashable b = true → ∃ k, py_key a b = Ok k.
Proof.
  intros [ha Ha]%py_hash_total [hb Hb]%py_hash_total.
  exists (ha, hb). unfold py_key. by rewrite Ha, Hb.
Qed.

Lemma list_of_iter check v :
  list_of check v = true → ∃ xs, py_iter v = Ok xs ∧ Forall (λ x, check x = true) xs.
Proof.
  destruct v as [| | | |xs|]; simpl; try discriminate.
  intros H. exists xs. split; [done|].
  apply Forall_forall. intros x Hx%list_elem_of_In.
  by eapply forallb_forall in H.
Qed.

Lemma for_in_total {A B} (xs : list A) (body : B → A → M B) :
  Forall (λ x, ∀ acc s, ∃ s' out, body acc x s = (s', Ok out)) xs →
  ∀ acc s, ∃ s' out, for_in xs acc body s = (s', Ok out).
Proof.
  induction 1 as [|x xs Hx _ IH]; intros acc s; simpl.
  - unfold ret. eauto.
  - destruct (Hx acc s) as (s1 & acc1 & Hstep).
    unfold bind. rewrite Hstep. apply IH.
Qed.

Lemma affected_names_total comps :
  Forall (λ c, is_dict c = true) comps → ∃ vs, affected_names comps = Ok vs.
Proof.
  induction 1 as [|c comps Hc _ [vs IH]]; simpl; [eauto|].
  destruct c; try discriminate. simpl.
  destruct (py_truthy _); [|eauto]. rewrite IH. simpl. eauto.
Qed.

Lemma visit_update_total inc_id inc_name inc_impact affected u :
  is_hashable inc_id = true → update_ok u = true →
  ∀ acc s, ∃ s' out,
    visit_update inc_id inc_name inc_impact affected acc u s = (s', Ok out).
Proof.
  intros Hinc Hu acc s. destruct u as [| | | | |kvs]; try discriminate.
  apply andb_prop in Hu as [Hid Hbody].
  apply (present_ok_default _ _ _ (JStr "")) in Hid; [|done].
  apply (present_ok_default _ _ _ (JStr "")) in Hbody; [|done].
  destruct (py_key_total _ _ Hinc Hid) as [k Hk].
  unfold visit_update, bind, lift, seen_contains, seen_add, ret. simpl.
  rewrite Hk. case_bool_decide; [eauto|].
  destruct (default (JStr "") (dict_lookup kvs "body")); try discriminate.
  simpl. eauto.
Qed.

Lemma visit_incident_total inc :
  incident_ok inc = true →
  ∀ acc s, ∃ s' out, visit_incident acc inc s = (s', Ok out).
Proof.
  intros Hinc acc s. destruct inc as [| | | | |kvs]; try discriminate.
  apply andb_prop in Hinc as [[Hid Hcomps]%andb_prop Hus].
  apply (present_ok_default _ _ _ (JStr "")) in Hid; [|done].
  apply (present_ok_default _ _ _ (JArr [])) in Hcomps; [|done].
  apply (present_ok_default _ _ _ (JArr [])) in Hus; [|done].
  apply list_of_iter in Hcomps as (comps & Hcomps & Hdicts).
  apply list_of_iter in Hus as (us & Hiter & Hupdates).
  destruct (affected_names_total _ Hdicts) as [affected Haff].
  unfold visit_incident, bind, lift, py_get, rbind.
  rewrite Hcomps, Haff, Hiter.
  apply for_in_total. eapply Forall_impl; [done|].
  intros u Hu. by apply visit_update_total.
Qed.

Lemma find_new_updates_total data :
  present_fields_ok data = true →
  ∀ s, ∃ s' out, find_new_updates data s = (s', Ok out).
Proof.
  intros Hdata s. destruct data as [| | | | |kvs]; try discriminate.
  apply (present_ok_default _ _ _ (JArr [])) in Hdata; [|done].
  apply list_of_iter in Hdata as (incs & Hiter & Hincs).
  unfold find_new_updates, bind, lift, py_get, rbind. rewrite Hiter.
  apply for_in_total. eapply Forall_impl; [done|].
  intros inc Hinc. by apply visit_incident_total.
Qed.

Lemma record_of_placeholders inc upd : placeholders inc upd (record_of inc upd).
Proof.
  unfold placeholders, absent, record_of, stripped_body, field. simpl.
  split_and!; first
    [ by (destruct inc; [done..|]; intros ->)
    | by (destruct upd; [done..|]; intros ->) ].
Qed.

(** C7. Default-field permissiveness.  On a document in which every field
    that is present has a usable type — whatever fields are absent, from the
    document, from an incident or from an update entry — the call does not
    raise: it returns, and it returns the new entries of the whole document.
    Each record returned is the record of an update entry of an incident of
    the document and has, for each field that entry lacks, the placeholder:
    the empty string for the two ids, [created_at] and [body], "Unknown
    incident" for the incident's name, "unknown" for status and impact. *)
Theorem default_field_permissiveness (data : json) (seen : gset key) :
  present_fields_ok data = true →
  ∃ seen' out,
    find_new_updates data seen = (seen', Ok out)
    ∧ out = new_among seen (all_records data)
    ∧ Forall (λ r, ∃ inc upd,
                inc ∈ incidents_of data ∧ upd ∈ updates_of inc
                ∧ r = record_of inc upd ∧ placeholders inc upd r) out.
Proof.
  intros Hok. destruct (find_new_updates_total _ Hok seen) as (seen' & out & Hcall).
  exists seen', out. split; [done|].
  apply find_new_updates_returns in Hcall as (-> & _ & _). split; [done|].
  apply Forall_forall. intros r Hr.
  eapply elem_of_sublist in Hr; [|apply new_among_sublist].
  apply all_records_provenance in Hr as (inc & upd & ? & ? & ->).
  exists inc, upd. split_and!; [done..|]. apply record_of_placeholders.
Qed.

Lemma default_field_permissiveness_witness :
  ∃ seen' out,
    find_new_updates doc_bare ∅ = (seen', Ok out)
    ∧ out = new_among ∅ (all_records doc_bare)
    ∧ Forall (λ r, ∃ inc upd,
                inc ∈ incidents_of doc_bare ∧ upd ∈ updates_of inc
                ∧ r = record_of inc upd ∧ placeholders inc upd r) out.
Proof. apply (default_field_permissiveness doc_bare ∅). reflexivity. Defined.

(** C9. A null body loses the update.  In [doc_null_body] the first update
    entry has a [body] field that is there and null.  A fresh detector raises
    [AttributeError] on it, and the key of that entry is in the seen-set the
    exception leaves behind.  The corrected document, which a fresh detector
    would answer with both of its updates, gets from this detector only the
    other one; and no later call on any document, in any state that still
    has the key, returns a record with it. *)
Theorem null_body_loses_update :
  ∃ (data fixed : json) (k : key) (r1 r2 : IncidentUpdate),
    (∃ inc kvs, inc ∈ incidents_of data ∧ JObj kvs ∈ updates_of inc
                ∧ dict_lookup kvs "body" = Some JNull
                ∧ update_key (record_of inc (JObj kvs)) = Some k)
    ∧ find_new_updates data ∅ = ({[k]}, Raise AttributeError)
    ∧ (find_new_updates fixed ∅).2 = Ok [r1; r2]
    ∧ update_key r1 = Some k
    ∧ (find_new_updates fixed {[k]}).2 = Ok [r2]
    ∧ ∀ later s s' out,
        k ∈ s → find_new_updates later s = (s', Ok out) → k ∉ keys_of out.
Proof.
  exists doc_null_body, doc_fixed_body, (HStr "I1", HStr "U1").
  exists (record_of (incident_entry "I1" [] [U_fixed_body; U2]) U_fixed_body).
  exists (record_of (incident_entry "I1" [] [U_fixed_body; U2]) U2).
  split_and!.
  - exists (incident_entry "I1" [] [U_null_body; U2]).
    exists [("id", JStr "U1"); ("body", JNull); ("status", JStr "investigating")].
    split_and!; [| |reflexivity..].
    + apply list_elem_of_singleton. reflexivity.
    + apply list_elem_of_here.
  - apply run_eq; [|vm_compute; reflexivity].
    apply (bool_decide_unpack _). vm_compute. exact I.
  - vm_compute. reflexivity.
  - reflexivity.
  - vm_compute. reflexivity.
  - intros later s s' out Hin (-> & _ & _)%find_new_updates_returns Hk.
    by apply new_among_fresh in Hk.
Qed.

(** C10. Affected components.  Every record a call returns is the record of
    an update entry of an incident of the document, and its
    [affected_components] is the list, in document order and with repeats
    kept, of the [name] values of that incident's components whose [name] is
    present and truthy — for a string, non-empty; a component whose name is
    absent or empty contributes nothing.  The list depends on the incident
    alone, so the records of one incident carry the same list. *)
Theorem affected_components_listing
    (data : json) (seen seen' : gset key) (out : list IncidentUpdate) :
  find_new_updates data seen = (seen', Ok out) →
  Forall (λ r, ∃ inc upd,
            inc ∈ incidents_of data ∧ upd ∈ updates_of inc
            ∧ r = record_of inc upd
            ∧ affected_components r = omap kept_name (components_of inc)) out
  ∧ (∀ kvs s, dict_lookup kvs "name" = Some (JStr s) →
       kept_name (JObj kvs) = if String.eqb s "" then None else Some (JStr s))
  ∧ (∀ kvs, dict_lookup kvs "name" = None → kept_name (JObj kvs) = None).
Proof.
  intros (-> & _ & _)%find_new_updates_returns. split_and!.
  - apply Forall_forall. intros r Hr.
    eapply elem_of_sublist in Hr; [|apply new_among_sublist].
    apply all_records_provenance in Hr as (inc & upd & ? & ? & ->).
    by exists inc, upd.
  - intros kvs s Hname. simpl. rewrite Hname. simpl. by destruct (String.eqb s "").
  - intros kvs Hname. simpl. by rewrite Hname.
Qed.

Lemma affected_components_listing_witness :
  Forall (λ r, ∃ inc upd,
            inc ∈ incidents_of doc_two_updates ∧ upd ∈ updates_of inc
            ∧ r = record_of inc upd
            ∧ affected_components r = omap kept_name (components_of inc))
    [record_of I1 U1; record_of I1 U2]
  ∧ (∀ kvs s, dict_lookup kvs "name" = Some (JStr s) →
       kept_name (JObj kvs) = if String.eqb s "" then None else Some (JStr s))
  ∧ (∀ kvs, dict_lookup kvs "name" = None → kept_name (JObj kvs) = None).
Proof.
  apply (affected_components_listing doc_two_updates ∅
           (find_new_updates doc_two_updates ∅).1).
  apply run_eq; [reflexivity | vm_compute; reflexivity].
Defined.

(** ** The fetcher and the poll loop *)

Lemma set_if_truthy_lookup k o d j :
  set_if_truthy k o d !! j = if decide (k = j) then
                               match carried o with Some v => Some v | None => d !! j end
                             else d !! j.
Proof.
  unfold set_if_truthy, carried. destruct o as [v|]; [|by case_decide].
  destruct (String.eqb v ""); [by case_decide|].
  rewrite lookup_insert. by case_decide.
Qed.

(** The entry [fetch] stores holds the validators of the response and
    nothing else. *)
Lemma new_cache_of_lookup headers j :
  new_cache_of headers !! j
  = if decide (j = "etag") then carried (header_get headers "ETag")
    else if decide (j = "last_modified") then carried (header_get headers "Last-Modified")
    else None.
Proof.
  unfold new_cache_of. rewrite !set_if_truthy_lookup, lookup_empty.
  repeat case_decide; try congruence; by destruct (carried _).
Qed.

Lemma fetch_cache url o cache :
  (fetch url o cache).1.1
  = match accepted o with
    | Some headers => <[url := new_cache_of headers]> cache
    | None => cache
    end.
Proof.
  unfold fetch, fetch_try, accepted, raise_for_status.
  destruct o as [| |status headers body]; [done..|].
  destruct (status =? 304)%Z; [done|].
  destruct (400 <=? status)%Z; [done|].
  by destruct body.
Qed.

Section Cycles.

Variable emit : string → IncidentUpdate → result unit.
Variables (provider_name url : string) (poll_interval : Z).

Lemma poll_loop_skipped o os w evs :
  monitor_cycle emit provider_name url poll_interval o w = (w, evs, Ok ()) →
  poll_loop emit provider_name url poll_interval (o :: os) w
  = ((poll_loop emit provider_name url poll_interval os w).1.1,
     evs ++ (poll_loop emit provider_name url poll_interval os w).1.2,
     (poll_loop emit provider_name url poll_interval os w).2).
Proof.
  intros Hcycle. cbn [poll_loop]. rewrite Hcycle.
  by destruct (poll_loop _ _ _ _ os w) as [[w2 evs'] st].
Qed.

(** C6. Not modified.  On a 304, whatever its headers and body, [fetch]
    returns [None] and the cache it leaves is the cache it found.  The turn
    of the loop then consists of the request, the debug line and the sleep:
    the detector is not called, its seen-set is as before, the sink is not
    invoked, and the loop goes on to its next request. *)
Theorem not_modified_skips_cycle
    (headers : list (string * string)) (body : body_result) (w : world)
    (os : list http_outcome) :
  let o := Response 304 headers body in
  let request := EvGet url (request_headers_of (default ∅ (fetcher_cache w !! url))) in
  fetch url o (fetcher_cache w) = (fetcher_cache w, [request; EvLog Debug], Ok JNull)
  ∧ monitor_cycle emit provider_name url poll_interval o w
    = (w, [request; EvLog Debug; EvSleep poll_interval], Ok ())
  ∧ emitted [request; EvLog Debug; EvSleep poll_interval] = []
  ∧ poll_loop emit provider_name url poll_interval (o :: os) w
    = ((poll_loop emit provider_name url poll_interval os w).1.1,
       [request; EvLog Debug; EvSleep poll_interval]
         ++ (poll_loop emit provider_name url poll_interval os w).1.2,
       (poll_loop emit provider_name url poll_interval os w).2).
Proof.
  intros o request.
  assert (monitor_cycle emit provider_name url poll_interval o w
          = (w, [request; EvLog Debug; EvSleep poll_interval], Ok ())) as Hcycle
    by by destruct w.
  split_and!; [done | done | done |]. by apply poll_loop_skipped.
Qed.

(** C5 (amended). Failure before the body.  When the request gets no
    response (network error or timeout), or gets one whose status is 400 or
    higher, [fetch] returns [None] without raising and leaves the cache as
    it found it.  The turn of the loop then consists of the request, the
    warning and the sleep: no sink call, both the cache and the seen-set as
    before, and the loop goes on to its next request. *)
Theorem refused_fetch_skips_cycle (o : http_outcome) (w : world) (os : list http_outcome) :
  refused o = true →
  let request := EvGet url (request_headers_of (default ∅ (fetcher_cache w !! url))) in
  fetch url o (fetcher_cache w) = (fetcher_cache w, [request; EvLog Warning], Ok JNull)
  ∧ monitor_cycle emit provider_name url poll_interval o w
    = (w, [request; EvLog Warning; EvSleep poll_interval], Ok ())
  ∧ emitted [request; EvLog Warning; EvSleep poll_interval] = []
  ∧ poll_loop emit provider_name url poll_interval (o :: os) w
    = ((poll_loop emit provider_name url poll_interval os w).1.1,
       [request; EvLog Warning; EvSleep poll_interval]
         ++ (poll_loop emit provider_name url poll_interval os w).1.2,
       (poll_loop emit provider_name url poll_interval os w).2).
Proof.
  intros Hrefused request.
  assert (fetch url o (fetcher_cache w)
          = (fetcher_cache w, [request; EvLog Warning], Ok JNull)) as Hfetch.
  { unfold fetch, fetch_try, raise_for_status.
    destruct o as [| |status headers body]; [done..|]. simpl in Hrefused.
    rewrite Hrefused. destruct (status =? 304)%Z eqn:H304; [|done].
    apply Z.eqb_eq in H304. apply Z.leb_le in Hrefused. lia. }
  assert (monitor_cycle emit provider_name url poll_interval o w
          = (w, [request; EvLog Warning; EvSleep poll_interval], Ok ())) as Hcycle.
  { unfold monitor_cycle. rewrite Hfetch. by destruct w. }
  split_and!; [done | done | done |]. by apply poll_loop_skipped.
Qed.

(** The body of an accepted response that is not JSON: [fetch] has stored
    the new validators by then, and the [ValueError] that [response.json]
    raises is caught neither by [fetch] nor by the loop. *)
Lemma not_json_escapes status headers cache seen os :
  status ≠ 304%Z → (status < 400)%Z →
  let o := Response status headers BodyNotJson in
  let request := EvGet url (request_headers_of (default ∅ (cache !! url))) in
  fetch url o cache
  = (<[url := new_cache_of headers]> cache, [request], Raise JSONDecodeError)
  ∧ monitor_provider emit provider_name url poll_interval (o :: os) (mkWorld cache seen)
    = (mkWorld (<[url := new_cache_of headers]> cache) seen,
       [EvLog Info; request], Stopped JSONDecodeError).
Proof.
  intros H304 H400 o request.
  assert (fetch url o cache
          = (<[url := new_cache_of headers]> cache, [request], Raise JSONDecodeError))
    as Hfetch.
  { unfold fetch, fetch_try, raise_for_status. simpl.
    rewrite (proj2 (Z.eqb_neq _ _) H304), (proj2 (Z.leb_gt _ _) H400). done. }
  split; [done|].
  unfold monitor_provider. cbn [poll_loop]. unfold monitor_cycle. simpl.
  by rewrite Hfetch.
Qed.

End Cycles.


(** The claim as first read fails on a status that is neither 2xx nor 304 but
    below 400: [raise_for_status] lets a 300 through, so [fetch] overwrites
    the entry of the URL with the validators of that response, returns its
    body as the document, and the turn of the loop calls the sink for it. *)
Lemma transport_failure_counterexample :
  transport_failure multiple_choices
  ∧ (fetch sample_url multiple_choices sample_cache).2 = Ok doc_two_updates
  ∧ sample_cache !! sample_url
    = Some {[ "etag" := "v1"; "last_modified" := "Wed, 01 May 2024 10:00:00 GMT" ]}
  ∧ (fetch sample_url multiple_choices sample_cache).1.1 !! sample_url
    = Some {[ "etag" := "v2" ]}
  ∧ length (emitted (monitor_cycle quiet_sink "OpenAI" sample_url 60
                       multiple_choices sample_world).1.2) = 2
  ∧ ¬ ((fetch sample_url multiple_choices sample_cache).2 = Ok JNull
       ∧ (fetch sample_url multiple_choices sample_cache).1.1 = sample_cache).
Proof.
  split_and!.
  - left. split; [lia | done].
  - reflexivity.
  - vm_compute. reflexivity.
  - vm_compute. reflexivity.
  - vm_compute. reflexivity.
  - intros [H _]. vm_compute in H. discriminate H.
Qed.

Lemma refused_fetch_skips_cycle_witness :
  let o := Response 503 [("ETag", "v2")] BodyNotJson in
  let request :=
    EvGet sample_url (request_headers_of (default ∅ (fetcher_cache sample_world !! sample_url))) in
  fetch sample_url o (fetcher_cache sample_world)
  = (fetcher_cache sample_world, [request; EvLog Warning], Ok JNull)
  ∧ monitor_cycle quiet_sink "OpenAI" sample_url 60 o sample_world
    = (sample_world, [request; EvLog Warning; EvSleep 60], Ok ())
  ∧ emitted [request; EvLog Warning; EvSleep 60] = []
  ∧ poll_loop quiet_sink "OpenAI" sample_url 60 [o; GetTimeout] sample_world
    = ((poll_loop quiet_sink "OpenAI" sample_url 60 [GetTimeout] sample_world).1.1,
       [request; EvLog Warning; EvSleep 60]
         ++ (poll_loop quiet_sink "OpenAI" sample_url 60 [GetTimeout] sample_world).1.2,
       (poll_loop quiet_sink "OpenAI" sample_url 60 [GetTimeout] sample_world).2).
Proof.
  intros o.
  apply (refused_fetch_skips_cycle quiet_sink "OpenAI" sample_url 60
           o sample_world [GetTimeout]).
  reflexivity.
Defined.

(** The same store-before-read order shows when the body read times out:
    [fetch] returns [None], as for any timeout, with the entry of the URL
    already replaced. *)
Lemma body_timeout_overwrites_cache :
  let o := Response 200 [("ETag", "v2")] BodyTimeout in
  transport_failure o
  ∧ (fetch sample_url o sample_cache).2 = Ok JNull
  ∧ (fetch sample_url o sample_cache).1.1 !! sample_url = Some {[ "etag" := "v2" ]}.
Proof.
  split_and!; [by right; right | reflexivity | vm_compute; reflexivity].
Qed.

(** C4. Unparseable body.  The server answers 200 with a new entity tag and
    a body that is not JSON, the cache holding the validators of an earlier
    response.  [fetch] raises [JSONDecodeError] instead of returning [None],
    and leaves the URL's entry replaced by the new tag alone.  The exception
    leaves [monitor_provider]: the loop stops there, without a sleep, and
    the next outcome, a good document, is never requested. *)
Theorem unparseable_body_stops_monitor :
  let run :=
    monitor_provider quiet_sink "OpenAI" sample_url 60
      [maintenance_page; Response 200 [] (BodyJson doc_two_updates)] sample_world in
  (fetch sample_url maintenance_page sample_cache).2 = Raise JSONDecodeError
  ∧ sample_cache !! sample_url
    = Some {[ "etag" := "v1"; "last_modified" := "Wed, 01 May 2024 10:00:00 GMT" ]}
  ∧ (fetch sample_url maintenance_page sample_cache).1.1 !! sample_url
    = Some {[ "etag" := "v2" ]}
  ∧ run.2 = Stopped JSONDecodeError
  ∧ fetcher_cache run.1.1 !! sample_url = Some {[ "etag" := "v2" ]}
  ∧ length run.1.2 = 2
  ∧ slept run.1.2 = []
  ∧ emitted run.1.2 = [].
Proof.
  split_and!; first [reflexivity | vm_compute; reflexivity].
Qed.

(** C8. Validator-cache replacement.  The entry is replaced wholesale, but
    not only by a fetch that succeeds.  The cache holds an entity tag and a
    last-modified marker for the URL; the server answers 200 with a new
    entity tag and the read of the body times out.  [fetch] returns [None],
    as for any timeout, and the turn of the loop calls neither the detector
    nor the sink — yet the entry of the URL is now the new tag alone, and
    the next request is made conditional on it. *)
Theorem failed_fetch_replaces_entry :
  let o := Response 200 [("ETag", "v2")] BodyTimeout in
  let turn := monitor_cycle quiet_sink "OpenAI" sample_url 60 o sample_world in
  transport_failure o
  ∧ sample_cache !! sample_url
    = Some {[ "etag" := "v1"; "last_modified" := "Wed, 01 May 2024 10:00:00 GMT" ]}
  ∧ (fetch sample_url o sample_cache).2 = Ok JNull
  ∧ (fetch sample_url o sample_cache).1.1 !! sample_url = Some {[ "etag" := "v2" ]}
  ∧ turn.2 = Ok ()
  ∧ emitted turn.1.2 = []
  ∧ detector_seen turn.1.1 = detector_seen sample_world
  ∧ fetcher_cache turn.1.1 !! sample_url = Some {[ "etag" := "v2" ]}
  ∧ request_headers_of (default ∅ (fetcher_cache turn.1.1 !! sample_url))
    = {[ "If-None-Match" := "v2" ]}.
Proof.
  split_and!; first [by right; right | reflexivity | vm_compute; reflexivity].
Qed.

(** X15. When the cache changes.  The cache [fetch] leaves is the cache it
    found, except when a response arrived whose status is not 304 and
    passes [raise_for_status], whatever then becomes of its body: then the
    entry of the URL, and only that entry, is set to a dict built from that
    response alone — its entity tag under "etag" if the response carries
    one, its last-modified marker under "last_modified" if it carries one,
    and no other key — so nothing of the previous entry survives. *)
Theorem validator_cache_replacement
    (url : string) (o : http_outcome) (cache : gmap string (gmap string string)) :
  (fetch url o cache).1.1
  = match accepted o with
    | Some headers => <[url := new_cache_of headers]> cache
    | None => cache
    end
  ∧ ∀ headers j,
      new_cache_of headers !! j
      = if decide (j = "etag") then carried (header_get headers "ETag")
        else if decide (j = "last_modified")
             then carried (header_get headers "Last-Modified")
             else None.
Proof.
  split; [apply fetch_cache | intros; apply new_cache_of_lookup].
Qed.

(** * More of the program *)

(** ** The fetcher on its own *)

Lemma carried_carried o : carried (carried o) = carried o.
Proof.
  destruct o as [v|]; [|done]. simpl.
  destruct (String.eqb v "") eqn:Hv; [done|]. simpl. by rewrite Hv.
Qed.

Lemma request_headers_of_lookup cached h :
  request_headers_of cached !! h
  = if decide (h = "If-Modified-Since") then carried (cached !! "last_modified")
    else if decide (h = "If-None-Match") then carried (cached !! "etag")
    else None.
Proof.
  unfold request_headers_of. rewrite !set_if_truthy_lookup, lookup_empty.
  repeat case_decide; try congruence; by destruct (carried _).
Qed.

(** X1. A failure while the body is read.  When a response arrives whose
    status is neither 304 nor 400 or more and the read of its body then
    breaks with a network error or runs out of time, the exception does not
    leave [fetch]: it logs a warning and returns [None] — and the entry of
    the URL has already been replaced by the validators of that response. *)
Theorem body_read_failure_is_swallowed
    (url : string) (status : Z) (headers : list (string * string))
    (body : body_result) (cache : gmap string (gmap string string)) :
  status ≠ 304%Z → (status < 400)%Z →
  body = BodyClientError ∨ body = BodyTimeout →
  fetch url (Response status headers body) cache
  = (<[url := new_cache_of headers]> cache,
     [EvGet url (request_headers_of (default ∅ (cache !! url))); EvLog Warning],
     Ok JNull).
Proof.
  intros H304 H400 Hbody. unfold fetch, fetch_try, raise_for_status.
  rewrite (proj2 (Z.eqb_neq _ _) H304), (proj2 (Z.leb_gt _ _) H400).
  by destruct Hbody as [-> | ->].
Qed.

Lemma body_read_failure_is_swallowed_witness :
  fetch sample_url (Response 200 [("ETag", "v2")] BodyTimeout) sample_cache
  = (<[sample_url := new_cache_of [("ETag", "v2")]]> sample_cache,
     [EvGet sample_url (request_headers_of (default ∅ (sample_cache !! sample_url)));
      EvLog Warning],
     Ok JNull).
Proof.
  apply (body_read_failure_is_swallowed sample_url 200 [("ETag", "v2")]
           BodyTimeout sample_cache); [lia | lia | by right].
Defined.

(** X2. Conditional requests.  The headers of the next request for a URL
    are read off the entry the last accepted response left: [If-None-Match]
    is that response's entity tag and [If-Modified-Since] its last-modified
    marker, each sent exactly when the response carried it, and nothing else
    is sent.  After any other outcome (304, refusal, no response) the next
    request has the headers this one had. *)
Theorem conditional_request_round_trip
    (url : string) (o : http_outcome) (cache : gmap string (gmap string string))
    (h : string) :
  request_headers_of (default ∅ ((fetch url o cache).1.1 !! url)) !! h
  = match accepted o with
    | Some headers =>
        if decide (h = "If-Modified-Since")
        then carried (header_get headers "Last-Modified")
        else if decide (h = "If-None-Match") then carried (header_get headers "ETag")
        else None
    | None => request_headers_of (default ∅ (cache !! url)) !! h
    end.
Proof.
  rewrite fetch_cache. destruct (accepted o) as [headers|]; [|done].
  rewrite lookup_insert_eq. simpl.
  rewrite request_headers_of_lookup, !new_cache_of_lookup. simpl.
  by rewrite !carried_carried.
Qed.

(** ** A turn of the loop, case by case *)

Lemma fetch_trace url o cache :
  emitted (fetch url o cache).1.2 = []
  ∧ slept (fetch url o cache).1.2 = []
  ∧ requests (fetch url o cache).1.2
    = [(url, request_headers_of (default ∅ (cache !! url)))].
Proof.
  unfold fetch, fetch_try, raise_for_status.
  destruct o as [| |status headers body]; [done..|].
  destruct (status =? 304)%Z; [done|].
  destruct (400 <=? status)%Z; [done|]. by destruct body.
Qed.

Lemma fetch_result url o cache :
  (fetch url o cache).2
  = match delivered o with
    | Some d => Ok d
    | None =>
        match o with
        | Response _ _ body =>
            match accepted o, response_json body with
            | Some _, Raise ClientError | Some _, Raise TimeoutError => Ok JNull
            | Some _, Raise e => Raise e
            | _, _ => Ok JNull
            end
        | _ => Ok JNull
        end
    end.
Proof.
  unfold fetch, fetch_try, raise_for_status, delivered, accepted.
  destruct o as [| |status headers body]; [done..|].
  destruct (status =? 304)%Z; [by destruct body|].
  destruct (400 <=? status)%Z; [by destruct body|].
  destruct body as [j| | | | | |]; [by destruct j | done..].
Qed.

Lemma delivered_not_null o d : delivered o = Some d → d ≠ JNull.
Proof.
  unfold delivered. destruct o as [| |status headers [j| | | | | |]]; try discriminate.
  destruct (status =? 304)%Z; [discriminate|].
  destruct (400 <=? status)%Z; [discriminate|].
  destruct j; [discriminate|..]; by intros [= <-].
Qed.

Section Turns.

Variable emit : string → IncidentUpdate → result unit.
Variables (provider_name url : string) (poll_interval : Z).

Lemma emit_all_sent us :
  ∃ sent,
    (emit_all emit provider_name us).1 = EvEmit provider_name <$> sent
    ∧ sent `prefix_of` us
    ∧ ∀ u, (emit_all emit provider_name us).2 = Ok u → sent = us.
Proof.
  induction us as [|upd us (sent & Hevs & Hpre & Hall)]; simpl.
  - exists []. by split_and!.
  - destruct (emit provider_name upd).
    + destruct (emit_all emit provider_name us) as [evs r]. simpl in *.
      exists (upd :: sent). rewrite Hevs. split_and!; [done | by apply prefix_cons |].
      intros u Hr. by rewrite (Hall u Hr).
    + exists [upd]. simpl. split_and!; [done | | done].
      by apply prefix_cons, prefix_nil.
Qed.

(** The turn, read by what the request brought. *)
Lemma monitor_cycle_unfold o w :
  monitor_cycle emit provider_name url poll_interval o w
  = let f := fetch url o (fetcher_cache w) in
    match delivered o with
    | None =>
        match f.2 with
        | Raise e => (mkWorld f.1.1 (detector_seen w), f.1.2, Raise e)
        | Ok _ => (mkWorld f.1.1 (detector_seen w), f.1.2 ++ [EvSleep poll_interval], Ok ())
        end
    | Some d =>
        let r := find_new_updates d (detector_seen w) in
        match r.2 with
        | Raise e => (mkWorld f.1.1 r.1, f.1.2, Raise e)
        | Ok [] =>
            (mkWorld f.1.1 r.1, f.1.2 ++ [EvLog Debug; EvSleep poll_interval], Ok ())
        | Ok out =>
            match (emit_all emit provider_name out).2 with
            | Raise e =>
                (mkWorld f.1.1 r.1, f.1.2 ++ (emit_all emit provider_name out).1, Raise e)
            | Ok _ =>
                (mkWorld f.1.1 r.1,
                 f.1.2 ++ (emit_all emit provider_name out).1 ++ [EvSleep poll_interval],
                 Ok ())
            end
        end
    end.
Proof.
  unfold monitor_cycle. cbv zeta.
  pose proof (fetch_result url o (fetcher_cache w)) as Hres.
  destruct (fetch url o (fetcher_cache w)) as [[cache1 evs1] fetched].
  cbn [fst snd] in *. subst fetched.
  destruct (delivered o) as [d|] eqn:Hd.
  - apply delivered_not_null in Hd.
    destruct (find_new_updates d (detector_seen w)) as [seen1 [out|e]];
      cbn [fst snd]; [|by destruct d].
    destruct out as [|upd out]; [by destruct d|].
    destruct (emit_all emit provider_name (upd :: out)) as [evs2 [[]|e]];
      cbn [fst snd]; by destruct d.
  - destruct o as [| |status headers body]; try done.
    destruct (accepted _); [|done]. by destruct body.
Qed.

End Turns.

(** ** What a trace holds *)

Lemma emitted_app evs1 evs2 : emitted (evs1 ++ evs2) = emitted evs1 ++ emitted evs2.
Proof. apply omap_app. Qed.

Lemma slept_app evs1 evs2 : slept (evs1 ++ evs2) = slept evs1 ++ slept evs2.
Proof. apply omap_app. Qed.

Lemma requests_app evs1 evs2 : requests (evs1 ++ evs2) = requests evs1 ++ requests evs2.
Proof. apply omap_app. Qed.

Lemma sunk_app evs1 evs2 : sunk (evs1 ++ evs2) = sunk evs1 ++ sunk evs2.
Proof. unfold sunk. by rewrite emitted_app, fmap_app. Qed.

Lemma emitted_sent p (sent : list IncidentUpdate) :
  emitted (EvEmit p <$> sent) = (λ u, (p, u)) <$> sent.
Proof.
  induction sent as [|u sent IH]; [done|].
  unfold emitted in *. simpl in *. by f_equal.
Qed.

Lemma sunk_sent p (sent : list IncidentUpdate) : sunk (EvEmit p <$> sent) = sent.
Proof.
  unfold sunk. rewrite emitted_sent, <-list_fmap_compose.
  by rewrite list_fmap_id.
Qed.

Lemma slept_sent p (sent : list IncidentUpdate) : slept (EvEmit p <$> sent) = [].
Proof. by induction sent. Qed.

Lemma requests_sent p (sent : list IncidentUpdate) : requests (EvEmit p <$> sent) = [].
Proof. by induction sent. Qed.

(** The keys of part of a call's output are as good as those of all of it. *)
Lemma prefix_keys d s s' out sent :
  find_new_updates d s = (s', Ok out) → sent `prefix_of` out →
  Forall (λ r, is_Some (update_key r)) sent
  ∧ NoDup (keys_of sent)
  ∧ ∀ k, k ∈ keys_of sent → (k ∉ s) ∧ k ∈ s'.
Proof.
  intros (Hkeyed & Hnd & Hfresh)%find_new_updates_keys [rest ->].
  rewrite keys_of_app in *. apply Forall_app in Hkeyed as [? _].
  apply NoDup_app in Hnd as (? & _ & _). split_and!; [done..|].
  intros k Hk. apply Hfresh. set_solver.
Qed.

Section TurnSummary.

Variable emit : string → IncidentUpdate → result unit.
Variables (provider_name url : string) (poll_interval : Z).

(** All that the loop theorems need of one turn. *)
Lemma monitor_cycle_summary o w :
  let c := monitor_cycle emit provider_name url poll_interval o w in
  fetcher_cache c.1.1 = (fetch url o (fetcher_cache w)).1.1
  ∧ detector_seen w ⊆ detector_seen c.1.1
  ∧ emitted c.1.2 = (λ u, (provider_name, u)) <$> sunk c.1.2
  ∧ Forall (λ r, is_Some (update_key r)) (sunk c.1.2)
  ∧ NoDup (keys_of (sunk c.1.2))
  ∧ (∀ k, k ∈ keys_of (sunk c.1.2) → (k ∉ detector_seen w) ∧ k ∈ detector_seen c.1.1)
  ∧ slept c.1.2 = match c.2 with Ok _ => [poll_interval] | Raise _ => [] end
  ∧ requests c.1.2 = [(url, request_headers_of (default ∅ (fetcher_cache w !! url)))].
Proof.
  intros c. subst c. rewrite monitor_cycle_unfold. cbv zeta.
  destruct (fetch_trace url o (fetcher_cache w)) as (Hem & Hsl & Hrq).
  assert (sunk (fetch url o (fetcher_cache w)).1.2 = []) as Hsunk
    by (unfold sunk; by rewrite Hem).
  destruct (delivered o) as [d|].
  - pose proof (grows_find_new_updates d (detector_seen w)) as Hgrow.
    destruct (find_new_updates d (detector_seen w)) as [seen1 [out|e]] eqn:Hcall;
      cbn [fst snd] in *.
    + destruct (emit_all_sent emit provider_name out) as (sent & Hevs & Hpre & Hall).
      destruct (prefix_keys _ _ _ _ _ Hcall Hpre) as (Hkeyed & Hnd & Hfresh).
      destruct out as [|upd out].
      { cbn [fst snd]. rewrite emitted_app, sunk_app, slept_app, requests_app.
        rewrite Hem, Hsl, Hrq, Hsunk. simpl.
        split_and!; try done; [constructor | by intros k ?%elem_of_nil]. }
      destruct (emit_all emit provider_name (upd :: out)) as [evs2 [[]|e]];
        cbn [fst snd] in *; subst evs2;
        rewrite ?emitted_app, ?sunk_app, ?slept_app, ?requests_app,
          Hem, Hsl, Hrq, Hsunk, ?emitted_sent, ?sunk_sent, ?slept_sent, ?requests_sent;
        simpl; rewrite ?app_nil_r; by split_and!.
    + cbn [fst snd]. rewrite Hem, Hsl, Hrq, Hsunk. simpl.
      split_and!; try done; [constructor | by intros k ?%elem_of_nil].
  - destruct ((fetch url o (fetcher_cache w)).2); cbn [fst snd];
      rewrite ?emitted_app, ?sunk_app, ?slept_app, ?requests_app, Hem, Hsl, Hrq, Hsunk;
      simpl; (split_and!; try done; [constructor | by intros k ?%elem_of_nil]).
Qed.

End TurnSummary.

(** ** Runs of the loop *)

Section Runs.

Variable emit : string → IncidentUpdate → result unit.
Variables (provider_name url : string) (poll_interval : Z).

Lemma poll_loop_cons o os w :
  poll_loop emit provider_name url poll_interval (o :: os) w
  = let c := monitor_cycle emit provider_name url poll_interval o w in
    match c.2 with
    | Raise e => (c.1.1, c.1.2, Stopped e)
    | Ok _ =>
        let r := poll_loop emit provider_name url poll_interval os c.1.1 in
        (r.1.1, c.1.2 ++ r.1.2, r.2)
    end.
Proof.
  cbn [poll_loop]. cbv zeta.
  destruct (monitor_cycle emit provider_name url poll_interval o w) as [[w1 evs] [u|e]];
    cbn [fst snd]; [|done].
  by destruct (poll_loop emit provider_name url poll_interval os w1) as [[w2 evs'] st].
Qed.

Lemma poll_loop_seen_grows os w :
  detector_seen w
  ⊆ detector_seen (poll_loop emit provider_name url poll_interval os w).1.1.
Proof.
  revert w. induction os as [|o os IH]; intros w; [done|].
  rewrite poll_loop_cons. cbv zeta.
  destruct (monitor_cycle_summary emit provider_name url poll_interval o w)
    as (_ & Hgrow & _).
  destruct (monitor_cycle emit provider_name url poll_interval o w) as [[w1 evs] [u|e]];
    cbn [fst snd] in *; [|done].
  specialize (IH w1). set_solver.
Qed.

(** X3. Each update reaches the sink at most once.  Over any run of the
    loop — any outcomes of its requests, any sink, any starting state, and
    whether the run is still polling or was stopped by an exception — the
    sink is called with this provider's name only, every update handed to it
    has a key, and no two of them have the same key; none of these keys was
    in the detector's seen-set when the run began, and all are in it at the
    end. *)
Theorem sink_called_once_per_update (os : list http_outcome) (w : world) :
  let run := poll_loop emit provider_name url poll_interval os w in
  emitted run.1.2 = (λ u, (provider_name, u)) <$> sunk run.1.2
  ∧ Forall (λ r, is_Some (update_key r)) (sunk run.1.2)
  ∧ NoDup (keys_of (sunk run.1.2))
  ∧ ∀ k, k ∈ keys_of (sunk run.1.2) →
         (k ∉ detector_seen w) ∧ k ∈ detector_seen run.1.1.
Proof.
  cbv zeta. revert w. induction os as [|o os IH]; intros w.
  - simpl. split_and!; [done | done | constructor | by intros k ?%elem_of_nil].
  - rewrite poll_loop_cons. cbv zeta.
    destruct (monitor_cycle_summary emit provider_name url poll_interval o w)
      as (_ & Hgrow & Hem & Hkeyed & Hnd & Hfresh & _).
    destruct (monitor_cycle emit provider_name url poll_interval o w) as [[w1 evs] [u|e]];
      cbn [fst snd] in *; [|done].
    destruct (IH w1) as (Hem' & Hkeyed' & Hnd' & Hfresh').
    rewrite emitted_app, sunk_app, keys_of_app, fmap_app, Hem, Hem'.
    split_and!; [done | by apply Forall_app | |].
    + apply NoDup_app. split_and!; [done | | done].
      intros k Hk Hk'. apply Hfresh in Hk. apply Hfresh' in Hk'. tauto.
    + intros k [Hk|Hk]%elem_of_app.
      * apply Hfresh in Hk. pose proof (poll_loop_seen_grows os w1). set_solver.
      * apply Hfresh' in Hk. set_solver.
Qed.

End Runs.

Lemma fetch_reads_own_entry url o (cache cache' : gmap string (gmap string string)) :
  cache !! url = cache' !! url →
  (fetch url o cache).1.2 = (fetch url o cache').1.2
  ∧ (fetch url o cache).2 = (fetch url o cache').2
  ∧ (fetch url o cache).1.1 !! url = (fetch url o cache').1.1 !! url.
Proof.
  intros Hentry. split_and!.
  - unfold fetch, fetch_try, raise_for_status. rewrite Hentry.
    destruct o as [| |status headers body]; [done..|].
    destruct (status =? 304)%Z; [done|].
    destruct (400 <=? status)%Z; [done|]. by destruct body.
  - by rewrite !fetch_result.
  - rewrite !fetch_cache. destruct (accepted o); [|done].
    by rewrite !lookup_insert_eq.
Qed.

Section Schedule.

Variable emit : string → IncidentUpdate → result unit.
Variables (provider_name url : string) (poll_interval : Z).

Lemma monitor_cycle_returns o w u :
  let c := monitor_cycle emit provider_name url poll_interval o w in
  c.2 = Ok u →
  match delivered o with
  | Some d =>
      find_new_updates d (detector_seen w) = (detector_seen c.1.1, Ok (sunk c.1.2))
  | None => detector_seen c.1.1 = detector_seen w ∧ sunk c.1.2 = []
  end.
Proof.
  cbv zeta. rewrite monitor_cycle_unfold. cbv zeta.
  destruct (fetch_trace url o (fetcher_cache w)) as (Hem & _ & _).
  assert (sunk (fetch url o (fetcher_cache w)).1.2 = []) as Hsunk
    by (unfold sunk; by rewrite Hem).
  destruct (delivered o) as [d|].
  - destruct (find_new_updates d (detector_seen w)) as [seen1 [out|e]];
      cbn [fst snd]; [|discriminate].
    destruct (emit_all_sent emit provider_name out) as (sent & Hevs & _ & Hall).
    destruct out as [|upd out].
    { cbn [fst snd]. rewrite sunk_app, Hsunk. done. }
    destruct (emit_all emit provider_name (upd :: out)) as [evs2 [[]|e]];
      cbn [fst snd] in *; [|discriminate].
    intros _. rewrite !sunk_app, Hsunk, Hevs, sunk_sent, (Hall () eq_refl). simpl.
    by rewrite app_nil_r.
  - destruct ((fetch url o (fetcher_cache w)).2); cbn [fst snd]; [|discriminate].
    by rewrite sunk_app, Hsunk.
Qed.

(** X4. A run that is still polling did what the detector would have done
    on the documents delivered, one call after the other: no call raised,
    the sink was handed exactly the records those calls returned, in that
    order, and the seen-set is the one those calls leave.  A document is
    delivered by a response that is neither a 304 nor refused and whose body
    parses to something other than [null]. *)
Theorem polling_run_is_feed (os : list http_outcome) (w : world) :
  let run := poll_loop emit provider_name url poll_interval os w in
  let calls := feed (detector_seen w) (omap delivered os) in
  run.2 = Polling →
  detector_seen run.1.1 = calls.1
  ∧ sunk run.1.2 = returned calls.2
  ∧ Forall (λ r, ∃ out, r = Ok out) calls.2.
Proof.
  cbv zeta. revert w. induction os as [|o os IH]; intros w.
  - by intros _.
  - rewrite poll_loop_cons. cbv zeta.
    pose proof (monitor_cycle_returns o w) as Hturn. cbv zeta in Hturn.
    destruct (monitor_cycle emit provider_name url poll_interval o w) as [[w1 evs] [u|e]];
      cbn [fst snd] in *; [|discriminate].
    specialize (Hturn u eq_refl). intros Hrest.
    destruct (IH w1 Hrest) as (Hseen & Hsunk & Hok).
    rewrite sunk_app. cbn [omap list_omap].
    destruct (delivered o) as [d|].
    + rewrite feed_cons, Hturn. cbn [fst snd returned].
      rewrite Hseen, Hsunk. split_and!; [done..|]. constructor; [eauto|done].
    + destruct Hturn as [Hsame Hnone]. rewrite Hnone, <-Hsame. by split_and!.
Qed.

(** X5. One request and one sleep per turn, at the fixed interval.  In any
    run the sleeps are all of [poll_interval] seconds and every request goes
    to the provider's URL.  A run that is still polling has made as many
    requests as it was given outcomes and slept after each; a run stopped by
    an exception did not sleep after its last request. *)
Theorem one_request_one_sleep_per_turn (os : list http_outcome) (w : world) :
  let run := poll_loop emit provider_name url poll_interval os w in
  ∃ n,
    slept run.1.2 = replicate n poll_interval
    ∧ Forall (λ rq, rq.1 = url) (requests run.1.2)
    ∧ match run.2 with
      | Polling => n = length os ∧ length (requests run.1.2) = n
      | Stopped _ => n < length os ∧ length (requests run.1.2) = S n
      end.
Proof.
  cbv zeta. revert w. induction os as [|o os IH]; intros w.
  - exists 0. by split_and!.
  - rewrite poll_loop_cons. cbv zeta.
    destruct (monitor_cycle_summary emit provider_name url poll_interval o w)
      as (_ & _ & _ & _ & _ & _ & Hsl & Hrq).
    destruct (monitor_cycle emit provider_name url poll_interval o w) as [[w1 evs] [u|e]];
      cbn [fst snd] in *.
    + destruct (IH w1) as (n & Hsl' & Hrq' & Hn).
      exists (S n). rewrite slept_app, requests_app, Hsl, Hrq, Hsl'.
      split_and!; [done | by constructor |].
      destruct (poll_loop emit provider_name url poll_interval os w1).2;
        simpl; lia.
    + exists 0. rewrite Hsl, Hrq. simpl. split_and!; [done | by constructor | lia..].
Qed.

(** X6. A provider's run touches its own entry only.  Whatever the run,
    the entry the shared fetcher holds for any other URL is at the end what
    it was at the start. *)
Theorem run_leaves_other_entries (os : list http_outcome) (w : world) (url' : string) :
  url' ≠ url →
  fetcher_cache (poll_loop emit provider_name url poll_interval os w).1.1 !! url'
  = fetcher_cache w !! url'.
Proof.
  intros Hne. revert w. induction os as [|o os IH]; intros w; [done|].
  rewrite poll_loop_cons. cbv zeta.
  destruct (monitor_cycle_summary emit provider_name url poll_interval o w)
    as (Hcache & _).
  assert (fetcher_cache (monitor_cycle emit provider_name url poll_interval o w).1.1
            !! url' = fetcher_cache w !! url') as Hturn.
  { rewrite Hcache, fetch_cache. destruct (accepted o); [|done].
    by rewrite lookup_insert_ne. }
  destruct (monitor_cycle emit provider_name url poll_interval o w) as [[w1 evs] [u|e]];
    cbn [fst snd] in *; [|done].
  by rewrite IH.
Qed.

Lemma monitor_cycle_reads_own_entry o w w' :
  fetcher_cache w !! url = fetcher_cache w' !! url →
  detector_seen w = detector_seen w' →
  let a := monitor_cycle emit provider_name url poll_interval o w in
  let b := monitor_cycle emit provider_name url poll_interval o w' in
  a.1.2 = b.1.2 ∧ a.2 = b.2
  ∧ detector_seen a.1.1 = detector_seen b.1.1
  ∧ fetcher_cache a.1.1 !! url = fetcher_cache b.1.1 !! url.
Proof.
  intros Hentry Hseen. cbv zeta. rewrite !monitor_cycle_unfold. cbv zeta.
  destruct (fetch_reads_own_entry url o _ _ Hentry) as (Htr & Hres & Hnew).
  rewrite <-Htr, <-Hres, <-Hseen.
  destruct (delivered o) as [d|].
  - destruct (find_new_updates d (detector_seen w)) as [seen1 [[|upd out]|e]];
      cbn [fst snd]; [done | | done].
    by destruct (emit_all emit provider_name (upd :: out)) as [evs2 [[]|e]].
  - by destruct ((fetch url o (fetcher_cache w)).2).
Qed.

(** X7. A provider's run reads its own entry only.  Two runs on the same
    outcomes, from states with the same seen-set and the same entry for the
    provider's URL, make the same requests, hand the sink the same updates,
    sleep alike and end alike, whatever else the shared fetcher's cache
    holds in the one and in the other. *)
Theorem run_reads_own_entry (os : list http_outcome) (w w' : world) :
  fetcher_cache w !! url = fetcher_cache w' !! url →
  detector_seen w = detector_seen w' →
  let a := poll_loop emit provider_name url poll_interval os w in
  let b := poll_loop emit provider_name url poll_interval os w' in
  a.1.2 = b.1.2 ∧ a.2 = b.2
  ∧ detector_seen a.1.1 = detector_seen b.1.1
  ∧ fetcher_cache a.1.1 !! url = fetcher_cache b.1.1 !! url.
Proof.
  cbv zeta. revert w w'. induction os as [|o os IH]; intros w w' Hentry Hseen.
  - by split_and!.
  - rewrite !poll_loop_cons. cbv zeta.
    destruct (monitor_cycle_reads_own_entry o w w' Hentry Hseen)
      as (Htr & Hres & Hseen1 & Hentry1).
    destruct (monitor_cycle emit provider_name url poll_interval o w) as [[w1 evs] r].
    destruct (monitor_cycle emit provider_name url poll_interval o w') as [[w1' evs'] r'].
    cbn [fst snd] in *. subst evs' r'.
    destruct r as [u|e]; cbn [fst snd]; [|by split_and!].
    destruct (IH w1 w1' Hentry1 Hseen1) as (-> & -> & ? & ?). by split_and!.
Qed.

End Schedule.

Lemma polling_run_is_feed_witness :
  let run := poll_loop quiet_sink "OpenAI" sample_url 60 sample_outcomes sample_world in
  let calls := feed (detector_seen sample_world) (omap delivered sample_outcomes) in
  detector_seen run.1.1 = calls.1
  ∧ sunk run.1.2 = returned calls.2
  ∧ Forall (λ r, ∃ out, r = Ok out) calls.2.
Proof.
  apply (polling_run_is_feed quiet_sink "OpenAI" sample_url 60
           sample_outcomes sample_world).
  vm_compute. reflexivity.
Defined.

Lemma run_leaves_other_entries_witness :
  fetcher_cache
    (poll_loop quiet_sink "OpenAI" sample_url 60 sample_outcomes shared_world).1.1
    !! other_url
  = fetcher_cache shared_world !! other_url.
Proof.
  apply (run_leaves_other_entries quiet_sink "OpenAI" sample_url 60
           sample_outcomes shared_world other_url).
  apply String.eqb_neq. reflexivity.
Defined.

Lemma run_reads_own_entry_witness :
  let a := poll_loop quiet_sink "OpenAI" sample_url 60 sample_outcomes sample_world in
  let b := poll_loop quiet_sink "OpenAI" sample_url 60 sample_outcomes shared_world in
  a.1.2 = b.1.2 ∧ a.2 = b.2
  ∧ detector_seen a.1.1 = detector_seen b.1.1
  ∧ fetcher_cache a.1.1 !! sample_url = fetcher_cache b.1.1 !! sample_url.
Proof.
  apply (run_reads_own_entry quiet_sink "OpenAI" sample_url 60
           sample_outcomes sample_world shared_world).
  - simpl. symmetry. apply lookup_insert_ne. apply String.eqb_neq. reflexivity.
  - reflexivity.
Defined.

(** ** Bodies that parse to something else than a document *)

Section OddBodies.

Variable emit : string → IncidentUpdate → result unit.
Variables (provider_name url : string) (poll_interval : Z).

(** X8. A body that is JSON [null].  On a response that is not a 304 and
    not refused, whose body parses to [null], [fetch] returns the same
    [None] it returns for "nothing new": the turn is the request and the
    sleep, with no log line, no detector call and no sink call — and the
    entry of the URL has been replaced by the validators of that response. *)
Theorem null_body_is_skipped
    (status : Z) (headers : list (string * string)) (w : world) :
  status ≠ 304%Z → (status < 400)%Z →
  monitor_cycle emit provider_name url poll_interval
    (Response status headers (BodyJson JNull)) w
  = (mkWorld (<[url := new_cache_of headers]> (fetcher_cache w)) (detector_seen w),
     [EvGet url (request_headers_of (default ∅ (fetcher_cache w !! url)));
      EvSleep poll_interval],
     Ok ()).
Proof.
  intros H304 H400. unfold monitor_cycle, fetch, fetch_try, raise_for_status.
  by rewrite (proj2 (Z.eqb_neq _ _) H304), (proj2 (Z.leb_gt _ _) H400).
Qed.

(** X9. A body that is JSON but not an object.  On a response that is not
    a 304 and not refused, whose body parses to a list, a string, a number
    or a boolean, the detector's first [get] raises [AttributeError]: the
    loop stops there, without a sleep and without a sink call, the seen-set
    is as it was, and the entry of the URL has been replaced. *)
Theorem non_object_body_stops_loop
    (status : Z) (headers : list (string * string)) (j : json)
    (os : list http_outcome) (w : world) :
  status ≠ 304%Z → (status < 400)%Z → j ≠ JNull → is_dict j = false →
  monitor_provider emit provider_name url poll_interval
    (Response status headers (BodyJson j) :: os) w
  = (mkWorld (<[url := new_cache_of headers]> (fetcher_cache w)) (detector_seen w),
     [EvLog Info; EvGet url (request_headers_of (default ∅ (fetcher_cache w !! url)))],
     Stopped AttributeError).
Proof.
  intros H304 H400 Hnull Hdict.
  unfold monitor_provider. cbn [poll_loop].
  unfold monitor_cycle, fetch, fetch_try, raise_for_status.
  rewrite (proj2 (Z.eqb_neq _ _) H304), (proj2 (Z.leb_gt _ _) H400).
  by destruct j.
Qed.

End OddBodies.

Lemma null_body_is_skipped_witness :
  monitor_cycle quiet_sink "OpenAI" sample_url 60
    (Response 200 [("ETag", "v2")] (BodyJson JNull)) sample_world
  = (mkWorld (<[sample_url := new_cache_of [("ETag", "v2")]]> (fetcher_cache sample_world))
       (detector_seen sample_world),
     [EvGet sample_url
        (request_headers_of (default ∅ (fetcher_cache sample_world !! sample_url)));
      EvSleep 60],
     Ok ()).
Proof.
  apply (null_body_is_skipped quiet_sink "OpenAI" sample_url 60 200
           [("ETag", "v2")] sample_world); lia.
Defined.

Lemma non_object_body_stops_loop_witness :
  monitor_provider quiet_sink "OpenAI" sample_url 60
    (Response 200 [("ETag", "v2")] (BodyJson (JArr [])) :: sample_outcomes) sample_world
  = (mkWorld (<[sample_url := new_cache_of [("ETag", "v2")]]> (fetcher_cache sample_world))
       (detector_seen sample_world),
     [EvLog Info;
      EvGet sample_url
        (request_headers_of (default ∅ (fetcher_cache sample_world !! sample_url)))],
     Stopped AttributeError).
Proof.
  apply (non_object_body_stops_loop quiet_sink "OpenAI" sample_url 60 200
           [("ETag", "v2")] (JArr []) sample_outcomes sample_world);
    [lia | lia | discriminate | reflexivity].
Defined.

(** ** What a call can add to the seen-set *)

Lemma adds_only_ret K {A} (a : A) : adds_only K (ret a).
Proof. intros s. simpl. set_solver. Qed.

Lemma adds_only_lift K {A} (r : result A) : adds_only K (lift r).
Proof. intros s. simpl. set_solver. Qed.

Lemma adds_only_seen_contains K k : adds_only K (seen_contains k).
Proof. intros s. simpl. set_solver. Qed.

Lemma adds_only_seen_add K k : k ∈ K → adds_only K (seen_add k).
Proof. intros Hk s. simpl. set_solver. Qed.

Lemma adds_only_mono K K' {A} (m : M A) : K ⊆ K' → adds_only K m → adds_only K' m.
Proof. intros HK Hm s. specialize (Hm s). set_solver. Qed.

Lemma adds_only_bind K {A B} (m : M A) (f : A → M B) :
  adds_only K m → (∀ a s s1, m s = (s1, Ok a) → adds_only K (f a)) →
  adds_only K (bind m f).
Proof.
  intros Hm Hf s. unfold bind. specialize (Hm s).
  destruct (m s) as [s1 [a|e]] eqn:Hrun; simpl in *; [|done].
  specialize (Hf a s s1 Hrun s1). set_solver.
Qed.

Lemma adds_only_for_in K {A B} (xs : list A) (body : B → A → M B) :
  (∀ acc x, x ∈ xs → adds_only K (body acc x)) →
  ∀ acc, adds_only K (for_in xs acc body).
Proof.
  induction xs as [|x xs IH]; intros Hbody acc; simpl.
  - apply adds_only_ret.
  - apply adds_only_bind; [apply Hbody; set_solver|].
    intros acc' _ _ _. apply IH. intros ? ? ?. apply Hbody. set_solver.
Qed.

Lemma adds_only_visit_update inc acc u :
  adds_only (list_to_set (keys_of [record_of inc u]))
    (visit_update (field inc "id" (JStr "")) (field inc "name" (JStr "Unknown incident"))
       (field inc "impact" (JStr "unknown")) (component_names inc) acc u).
Proof.
  unfold visit_update.
  apply adds_only_bind; [apply adds_only_lift|].
  intros upd_id s s1 [Hid _]%lift_returns. apply py_get_returns in Hid as [_ ->].
  apply adds_only_bind; [apply adds_only_lift|].
  intros k s' s1' [Hk _]%lift_returns.
  apply adds_only_bind; [apply adds_only_seen_contains|].
  intros known _ _ _. destruct known; [apply adds_only_ret|].
  apply adds_only_bind.
  { apply adds_only_seen_add. unfold keys_of, update_key. simpl. rewrite Hk. set_solver. }
  intros _ _ _ _.
  repeat (apply adds_only_bind; [apply adds_only_lift | intros ? _ _ _]).
  apply adds_only_ret.
Qed.

Lemma adds_only_visit_incident acc inc :
  adds_only (list_to_set (keys_of (record_of inc <$> updates_of inc)))
    (visit_incident acc inc).
Proof.
  unfold visit_incident.
  apply adds_only_bind; [apply adds_only_lift|].
  intros inc_id s0 s0' [Hid _]%lift_returns. apply py_get_returns in Hid as [_ ->].
  apply adds_only_bind; [apply adds_only_lift|].
  intros inc_name s1 s1' [Hname _]%lift_returns. apply py_get_returns in Hname as [_ ->].
  apply adds_only_bind; [apply adds_only_lift|].
  intros inc_impact s2 s2' [Himp _]%lift_returns. apply py_get_returns in Himp as [_ ->].
  apply adds_only_bind; [apply adds_only_lift|].
  intros comps s3 s3' [Hcomps _]%lift_returns.
  apply rbind_returns in Hcomps as (cs & [_ ->]%py_get_returns & Hcomps%py_iter_returns).
  apply adds_only_bind; [apply adds_only_lift|].
  intros affected s4 s4' [Haff%affected_names_returns _]%lift_returns.
  apply adds_only_bind; [apply adds_only_lift|].
  intros us s5 s5' [Hus _]%lift_returns.
  apply rbind_returns in Hus as (us' & [_ ->]%py_get_returns & Hus%py_iter_returns).
  subst comps affected us.
  apply adds_only_for_in. intros acc' u Hu.
  eapply adds_only_mono; [|apply adds_only_visit_update].
  intros k Hk. apply elem_of_list_to_set in Hk. apply elem_of_list_to_set.
  unfold keys_of in *. apply list_elem_of_omap in Hk as (r & ->%list_elem_of_singleton & Hr).
  apply list_elem_of_omap. exists (record_of inc u). split; [|done].
  apply list_elem_of_fmap. eauto.
Qed.

Lemma adds_only_find_new_updates data :
  adds_only (list_to_set (keys_of (all_records data))) (find_new_updates data).
Proof.
  unfold find_new_updates.
  apply adds_only_bind; [apply adds_only_lift|].
  intros incs s s' [Hincs _]%lift_returns.
  apply rbind_returns in Hincs as (v & [_ ->]%py_get_returns & Hincs%py_iter_returns).
  apply adds_only_for_in. intros acc inc Hinc.
  eapply adds_only_mono; [|apply adds_only_visit_incident].
  intros k Hk. apply elem_of_list_to_set in Hk. apply elem_of_list_to_set.
  unfold keys_of in *. apply list_elem_of_omap in Hk as (r & Hr & Hkey).
  apply list_elem_of_omap. exists r. split; [|done].
  unfold all_records, incidents_of. rewrite Hincs.
  apply list_elem_of_bind. eauto.
Qed.

(** X10. What a call does to the seen-set.  After a call, whether it
    returned or raised, the seen-set holds what it held before and, besides,
    only keys of update entries of the document it was given; if the call
    returned, it holds the key of every one of them. *)
Theorem seen_set_after_call (data : json) (seen : gset key) :
  seen ⊆ (find_new_updates data seen).1
  ∧ (find_new_updates data seen).1 ⊆ list_to_set (keys_of (all_records data)) ∪ seen
  ∧ ∀ out, (find_new_updates data seen).2 = Ok out →
      (find_new_updates data seen).1 = list_to_set (keys_of (all_records data)) ∪ seen.
Proof.
  split_and!.
  - apply grows_find_new_updates.
  - apply adds_only_find_new_updates.
  - intros out Hout.
    destruct (find_new_updates data seen) as [s' r] eqn:Hcall. simpl in *. subst r.
    by apply find_new_updates_returns in Hcall as (_ & -> & _).
Qed.

(** ** The product label of the console sink *)

Lemma as_strs_of_strs ss : as_strs (JStr <$> ss) = Ok ss.
Proof.
  induction ss as [|s ss IH]; [done|].
  change (JStr <$> s :: ss) with (JStr s :: (JStr <$> ss)).
  cbn [as_strs]. by rewrite IH.
Qed.

Lemma as_strs_raises xs e :
  as_strs xs = Raise e ↔ e = TypeError ∧ Exists (λ v, is_str v = false) xs.
Proof.
  revert e. induction xs as [|x xs IH]; intros e; simpl.
  - split; [discriminate | by intros [_ ?%Exists_nil]].
  - assert (is_str x = false → (Raise TypeError : result (list string)) = Raise e
            ↔ e = TypeError ∧ Exists (λ v, is_str v = false) (x :: xs)) as Hbad.
    { intros Hx. split; [intros [= <-]; split; [done | by left] | by intros [-> _]]. }
    destruct x; try (by apply Hbad).
    destruct (as_strs xs) as [ss|e'] eqn:Hxs; simpl.
    + split; [discriminate|]. intros [He [?|Hex]%Exists_cons]; [done|].
      pose proof (proj2 (IH e) (conj He Hex)). congruence.
    + split.
      * intros [= ->]. destruct (proj1 (IH e) eq_refl) as [-> ?].
        split; [done | by right].
      * intros [-> _]. f_equal. by destruct (proj1 (IH e') eq_refl).
Qed.

Lemma product_label_strs provider_name s ss :
  product_label provider_name (JStr <$> s :: ss) = Ok (String.concat ", " (s :: ss)).
Proof.
  unfold product_label, py_join.
  change (JStr <$> s :: ss) with (JStr s :: (JStr <$> ss)).
  cbn [as_strs]. by rewrite as_strs_of_strs.
Qed.

(** X11. The product label.  The label is the provider's name followed by
    " API" when the record has no component names, and the names joined by
    ", " when it has some and all are strings.  [emit] fails on it with
    [TypeError] exactly when one of the names is not a string. *)
Theorem product_label_spec (provider_name : string) :
  product_label provider_name [] = Ok (String.append provider_name " API")
  ∧ (∀ s ss, product_label provider_name (JStr <$> s :: ss)
             = Ok (String.concat ", " (s :: ss)))
  ∧ ∀ names e,
      product_label provider_name names = Raise e
      ↔ e = TypeError ∧ Exists (λ v, is_str v = false) names.
Proof.
  split_and!; [done | |].
  - intros s ss. apply product_label_strs.
  - intros names e. destruct names as [|x names].
    + simpl. split; [discriminate | by intros [_ ?%Exists_nil]].
    + unfold product_label, py_join. rewrite <-as_strs_raises.
      destruct (as_strs (x :: names)); simpl; split; (discriminate || by intros [= ->]).
Qed.

Lemma kept_names_are_strs comps :
  forallb (λ c, match c with
                | JObj kvs => present_ok kvs "name" is_str
                | _ => true
                end) comps = true →
  ∃ ss, omap kept_name comps = JStr <$> ss ∧ Forall (λ s, s ≠ "") ss.
Proof.
  induction comps as [|c comps IH].
  - exists []. by split.
  - intros [Hc Hrest]%andb_prop. destruct (IH Hrest) as (ss & Hss & Hne).
    change (omap kept_name (c :: comps))
      with (match kept_name c with
            | Some y => y :: omap kept_name comps
            | None => omap kept_name comps
            end).
    rewrite Hss.
    assert (kept_name c = None ∨ ∃ s, kept_name c = Some (JStr s) ∧ s ≠ "")
      as [-> | (s & -> & Hs)].
    { destruct c as [| | | | |kvs]; simpl; auto.
      unfold present_ok in Hc.
      destruct (dict_lookup kvs "name") as [v|]; auto.
      destruct v as [| | |s| |]; try discriminate. simpl.
      destruct (String.eqb_spec s ""); simpl; eauto. }
    + eauto.
    + exists (s :: ss). split; [done | by constructor].
Qed.

Lemma append_API_nonempty p : String.append p " API" ≠ "".
Proof. by destruct p. Qed.

Lemma concat_nonempty sep s ss : s ≠ "" → String.concat sep (s :: ss) ≠ "".
Proof.
  intros Hs. destruct s as [|c s]; [done|].
  destruct ss; simpl; discriminate.
Qed.

(** X12. Records the sink can label.  When every component of the document
    that has a name has a string for it, each record a call returns gets a
    product label without [TypeError], and the label is not empty: the
    names kept are non-empty strings, and without any the provider's name
    stands in. *)
Theorem returned_records_have_labels
    (provider_name : string) (data : json) (seen seen' : gset key)
    (out : list IncidentUpdate) :
  find_new_updates data seen = (seen', Ok out) →
  component_names_are_str data = true →
  Forall (λ r, ∃ label,
            product_label provider_name (affected_components r) = Ok label
            ∧ label ≠ "") out.
Proof.
  intros (-> & _ & _)%find_new_updates_returns Hnames.
  apply Forall_forall. intros r Hr.
  eapply elem_of_sublist in Hr; [|apply new_among_sublist].
  apply all_records_provenance in Hr as (inc & upd & Hinc & _ & ->).
  unfold component_names_are_str in Hnames.
  eapply forallb_forall in Hnames; [|by apply list_elem_of_In].
  apply kept_names_are_strs in Hnames as (ss & Hss & Hne).
  cbn [affected_components record_of]. unfold component_names. rewrite Hss.
  destruct ss as [|s ss].
  - eexists. split; [done | apply append_API_nonempty].
  - rewrite product_label_strs. eexists. split; [done|].
    apply Forall_cons in Hne as [Hs _]. by apply concat_nonempty.
Qed.

Lemma returned_records_have_labels_witness :
  Forall (λ r, ∃ label,
            product_label "OpenAI" (affected_components r) = Ok label
            ∧ label ≠ "") [record_of I1 U1; record_of I1 U2].
Proof.
  apply (returned_records_have_labels "OpenAI" doc_two_updates ∅
           (find_new_updates doc_two_updates ∅).1).
  - apply run_eq; [reflexivity | vm_compute; reflexivity].
  - reflexivity.
Defined.

(** ** What can stop the loop *)

Lemma raises_read_errors_ret {A} (a : A) : raises_read_errors (ret a).
Proof. intros s e. discriminate. Qed.

Lemma raises_read_errors_lift {A} (r : result A) :
  (∀ e, r = Raise e → read_error e) → raises_read_errors (lift r).
Proof. intros Hr s e. simpl. apply Hr. Qed.

Lemma raises_read_errors_bind {A B} (m : M A) (f : A → M B) :
  raises_read_errors m → (∀ a, raises_read_errors (f a)) →
  raises_read_errors (bind m f).
Proof.
  intros Hm Hf s e. unfold bind. specialize (Hm s).
  destruct (m s) as [s1 [a|e']]; simpl in *; [apply Hf | intros [= <-]; by apply Hm].
Qed.

Lemma raises_read_errors_for_in {A B} (xs : list A) (body : B → A → M B) :
  (∀ acc x, raises_read_errors (body acc x)) →
  ∀ acc, raises_read_errors (for_in xs acc body).
Proof.
  intros Hbody. induction xs as [|x xs IH]; intros acc; simpl.
  - apply raises_read_errors_ret.
  - apply raises_read_errors_bind; [apply Hbody | intros acc'; apply IH].
Qed.

Lemma py_get_raises o k dflt e : py_get o k dflt = Raise e → read_error e.
Proof. destruct o; simpl; intros [= <-]; by left. Qed.

Lemma py_iter_raises o e : py_iter o = Raise e → read_error e.
Proof. destruct o; simpl; intros [= <-]; by right. Qed.

Lemma py_key_raises a b e : py_key a b = Raise e → read_error e.
Proof.
  unfold py_key. destruct a; simpl; try (intros [= <-]; by right);
    destruct b; simpl; intros [= <-]; by right.
Qed.

Lemma py_strip_raises v e : py_strip v = Raise e → read_error e.
Proof. destruct v; simpl; intros [= <-]; by left. Qed.

Lemma get_iter_raises o k dflt e :
  (let! v := py_get o k dflt in py_iter v) = Raise e → read_error e.
Proof.
  destruct (py_get o k dflt) as [v|e'] eqn:Hget; simpl.
  - apply py_iter_raises.
  - intros [= <-]. by eapply py_get_raises.
Qed.

Lemma affected_names_raises comps e : affected_names comps = Raise e → read_error e.
Proof.
  induction comps as [|c comps IH]; simpl; [discriminate|].
  destruct c; simpl; try (intros [= <-]; by left).
  destruct (py_truthy _); [|done].
  destruct (affected_names comps); simpl; [discriminate|].
  intros [= <-]. by apply IH.
Qed.

(** X16. What the detector raises.  Whatever JSON value it is given and
    whatever it has seen, [find_new_updates] raises nothing but
    [AttributeError] (a [get] or [strip] on a value that has none) and
    [TypeError] (iterating a value that is not iterable, hashing an id that
    is a list or a dict). *)
Theorem detector_raises_read_errors (data : json) (seen : gset key) (e : exn) :
  (find_new_updates data seen).2 = Raise e → e = AttributeError ∨ e = TypeError.
Proof.
  revert seen e. change (raises_read_errors (find_new_updates data)).
  unfold find_new_updates.
  apply raises_read_errors_bind.
  { apply raises_read_errors_lift, get_iter_raises. }
  intros incs. apply raises_read_errors_for_in. intros acc inc.
  unfold visit_incident.
  do 3 (apply raises_read_errors_bind;
        [apply raises_read_errors_lift, py_get_raises | intros ?]).
  apply raises_read_errors_bind;
    [apply raises_read_errors_lift, get_iter_raises | intros comps].
  apply raises_read_errors_bind;
    [apply raises_read_errors_lift, affected_names_raises | intros affected].
  apply raises_read_errors_bind;
    [apply raises_read_errors_lift, get_iter_raises | intros us].
  apply raises_read_errors_for_in. intros acc' u.
  unfold visit_update.
  apply raises_read_errors_bind;
    [apply raises_read_errors_lift, py_get_raises | intros upd_id].
  apply raises_read_errors_bind;
    [apply raises_read_errors_lift, py_key_raises | intros k].
  apply raises_read_errors_bind; [by intros s e | intros known].
  destruct known; [apply raises_read_errors_ret|].
  apply raises_read_errors_bind; [by intros s e | intros _].
  apply raises_read_errors_bind;
    [apply raises_read_errors_lift, py_get_raises | intros created].
  apply raises_read_errors_bind;
    [apply raises_read_errors_lift, py_get_raises | intros raw].
  apply raises_read_errors_bind;
    [apply raises_read_errors_lift, py_strip_raises | intros stripped].
  apply raises_read_errors_bind;
    [apply raises_read_errors_lift, py_get_raises | intros status].
  apply raises_read_errors_ret.
Qed.

Lemma detector_raises_read_errors_witness :
  AttributeError = AttributeError ∨ AttributeError = TypeError.
Proof.
  apply (detector_raises_read_errors doc_null_body ∅ AttributeError).
  vm_compute. reflexivity.
Defined.

Lemma benign_fetch_returns url o cache :
  benign o = true → ∃ j, (fetch url o cache).2 = Ok j.
Proof.
  unfold benign, fetch, fetch_try, raise_for_status.
  destruct o as [| |status headers body]; [eauto..|].
  destruct (status =? 304)%Z; [eauto|].
  destruct (400 <=? status)%Z; [eauto|].
  destruct body; try discriminate; eauto.
Qed.

Lemma benign_delivered o d :
  benign o = true → delivered o = Some d → present_fields_ok d = true.
Proof.
  unfold benign, delivered.
  destruct o as [| |status headers [j| | | | | |]]; try discriminate.
  destruct (status =? 304)%Z; [discriminate|].
  destruct (400 <=? status)%Z; [discriminate|].
  destruct j; [discriminate|..]; by intros ? [= <-].
Qed.

Section Stops.

Variable emit : string → IncidentUpdate → result unit.
Variables (provider_name url : string) (poll_interval : Z).

Lemma emit_all_quiet us :
  (∀ u, emit provider_name u = Ok ()) →
  ∀ e, (emit_all emit provider_name us).2 ≠ Raise e.
Proof.
  intros Hquiet. induction us as [|u us IH]; intros e; simpl; [done|].
  rewrite Hquiet. specialize (IH e).
  by destruct (emit_all emit provider_name us).
Qed.

(** X13. The loop keeps polling.  With a sink that does not raise, a run
    is not stopped as long as each of its requests ends in one of these
    ways: no response (network error, timeout), a 304, a status of 400 or
    more, a body read that breaks or times out, a [null] body, or a document
    in which every field that is present has a usable type.  After any
    number of such turns the loop is still in its [while True]. *)
Theorem loop_keeps_polling (os : list http_outcome) (w : world) :
  (∀ u, emit provider_name u = Ok ()) →
  forallb benign os = true →
  (poll_loop emit provider_name url poll_interval os w).2 = Polling.
Proof.
  intros Hquiet. revert w. induction os as [|o os IH]; intros w; [done|].
  cbn [forallb]. intros [Ho Hos]%andb_prop.
  rewrite poll_loop_cons. cbv zeta.
  assert (∃ u, (monitor_cycle emit provider_name url poll_interval o w).2 = Ok u)
    as [u Hturn].
  { rewrite monitor_cycle_unfold. cbv zeta.
    destruct (delivered o) as [d|] eqn:Hd.
    - apply (benign_delivered _ _ Ho) in Hd.
      destruct (find_new_updates_total _ Hd (detector_seen w)) as (seen1 & out & ->).
      cbn [fst snd]. destruct out as [|upd out]; [eauto|].
      pose proof (emit_all_quiet (upd :: out) Hquiet) as Hsink.
      destruct (emit_all emit provider_name (upd :: out)) as [evs2 [[]|e]];
        cbn [fst snd] in *; [eauto | by destruct (Hsink e)].
    - destruct (benign_fetch_returns url o (fetcher_cache w) Ho) as [j ->]. eauto. }
  destruct (monitor_cycle emit provider_name url poll_interval o w) as [[w1 evs] r].
  cbn [fst snd] in *. subst r. cbn [fst snd]. by apply IH.
Qed.

End Stops.

Lemma loop_keeps_polling_witness :
  (poll_loop quiet_sink "OpenAI" sample_url 60
     (Response 200 [("ETag", "v3")] BodyTimeout :: sample_outcomes) sample_world).2
  = Polling.
Proof.
  apply (loop_keeps_polling quiet_sink "OpenAI" sample_url 60
           (Response 200 [("ETag", "v3")] BodyTimeout :: sample_outcomes) sample_world).
  - intros u. reflexivity.
  - reflexivity.
Defined.

Section SinkFailure.

Variable emit : string → IncidentUpdate → result unit.
Variables (provider_name url : string) (poll_interval : Z).

Lemma emit_all_fails before u after e :
  Forall (λ x, emit provider_name x = Ok ()) before →
  emit provider_name u = Raise e →
  emit_all emit provider_name (before ++ u :: after)
  = (EvEmit provider_name <$> before ++ [u], Raise e).
Proof.
  intros Hbefore Hu. induction Hbefore as [|x before Hx _ IH]; simpl.
  - by rewrite Hu.
  - by rewrite Hx, IH.
Qed.

(** X14. A sink that raises.  When the sink raises on one update of a
    call's output, the exception stops the loop: the updates before it and
    that one were handed to the sink, the ones after it were not, there is no
    sleep and no further request — and the keys of the ones after it are in
    the seen-set all the same, the detector having added them before the
    first sink call. *)
Theorem sink_failure_stops_loop
    (o : http_outcome) (os : list http_outcome) (w : world) (d : json)
    (seen1 : gset key) (before after : list IncidentUpdate) (u : IncidentUpdate)
    (e : exn) :
  delivered o = Some d →
  find_new_updates d (detector_seen w) = (seen1, Ok (before ++ u :: after)) →
  Forall (λ x, emit provider_name x = Ok ()) before →
  emit provider_name u = Raise e →
  let run := poll_loop emit provider_name url poll_interval (o :: os) w in
  run.2 = Stopped e
  ∧ sunk run.1.2 = before ++ [u]
  ∧ slept run.1.2 = []
  ∧ length (requests run.1.2) = 1
  ∧ detector_seen run.1.1 = seen1
  ∧ ∀ k, k ∈ keys_of after → k ∈ seen1.
Proof.
  intros Hd Hcall Hbefore Hu. cbv zeta.
  destruct (fetch_trace url o (fetcher_cache w)) as (Hem & Hsl & Hrq).
  assert (sunk (fetch url o (fetcher_cache w)).1.2 = []) as Hsunk
    by (unfold sunk; by rewrite Hem).
  rewrite poll_loop_cons. cbv zeta. rewrite monitor_cycle_unfold. cbv zeta.
  rewrite Hd, Hcall. cbn [fst snd].
  rewrite (emit_all_fails _ _ after _ Hbefore Hu). cbn [fst snd].
  assert (∀ k, k ∈ keys_of after → k ∈ seen1) as Hafter.
  { apply find_new_updates_keys in Hcall as (_ & _ & Hfresh).
    intros k Hk. apply Hfresh. rewrite keys_of_app.
    change (u :: after) with ([u] ++ after). rewrite keys_of_app. set_solver. }
  destruct (before ++ u :: after) as [|x rest] eqn:Hout.
  { by destruct before. }
  cbn [fst snd].
  rewrite sunk_app, slept_app, requests_app, Hsunk, Hsl, Hrq,
    sunk_sent, slept_sent, requests_sent.
  by split_and!.
Qed.

End SinkFailure.

Lemma sink_failure_stops_loop_witness :
  let o := Response 200 [("ETag", "v2")] (BodyJson doc_two_updates) in
  let run := poll_loop failing_sink "OpenAI" sample_url 60 (o :: sample_outcomes)
               sample_world in
  run.2 = Stopped AttributeError
  ∧ sunk run.1.2 = [] ++ [record_of I1 U1]
  ∧ slept run.1.2 = []
  ∧ length (requests run.1.2) = 1
  ∧ detector_seen run.1.1 = (find_new_updates doc_two_updates ∅).1
  ∧ ∀ k, k ∈ keys_of [record_of I1 U2] → k ∈ (find_new_updates doc_two_updates ∅).1.
Proof.
  intros o.
  apply (sink_failure_stops_loop failing_sink "OpenAI" sample_url 60 o sample_outcomes
           sample_world doc_two_updates (find_new_updates doc_two_updates ∅).1
           [] [record_of I1 U2] (record_of I1 U1) AttributeError).
  - reflexivity.
  - apply run_eq; [reflexivity | vm_compute; reflexivity].
  - constructor.
  - reflexivity.
Defined.
